(** * PCA notebook: standardization, covariance, ranking, explained
      variance, projection

    A shallow embedding of the numerical cells of [PCA.ipynb].  The
    notebook works on numpy [float64] arrays; here every array entry is
    a real number and arithmetic is exact, so the statements below are
    the exact-arithmetic content of the notebook (rounding is not
    modelled).  The one place where floating point shows through in the
    control flow of the code, a division by zero that yields [nan] or
    [inf] with a warning instead of an exception, is kept: such results
    are the value [nonfinite] of [npfloat].

    Arrays are lists, as numpy prints them: a 1-D array is a list of
    entries and a 2-D array is the list of its rows. *)

From Stdlib Require Import Reals Lra Lia List ZArith Bool.
From Stdlib Require String Ascii OrdersEx Permutation.
Import ListNotations.
Import String.StringSyntax.
Delimit Scope string_scope with string.

Open Scope R_scope.

(** ** Arrays *)

Definition vector := list R.
Definition matrix := list (list R).

(** [X.shape[0]] and [X.shape[1]]. *)
Definition nrows {A} (X : list (list A)) : nat := length X.
Definition ncols {A} (X : list (list A)) : nat :=
  match X with
  | [] => 0%nat
  | r :: _ => length r
  end.

(** A list of rows is a 2-D array of shape [N x D]. *)
Definition has_shape {A} (N D : nat) (X : list (list A)) : Prop :=
  length X = N /\ Forall (fun r => length r = D) X.

Definition has_shapeb {A} (N D : nat) (X : list (list A)) : bool :=
  Nat.eqb (length X) N && forallb (fun r => Nat.eqb (length r) D) X.

(** [X[i][j]], with [0] read outside the array. *)
Definition entry (X : matrix) (i j : nat) : R := nth j (nth i X []) 0.

(** [X[:, j]]. *)
Definition col (j : nat) (X : matrix) : vector := map (fun r => nth j r 0) X.

(** [X.T]. *)
Definition transpose (X : matrix) : matrix :=
  map (fun j => col j X) (seq 0 (ncols X)).

(** [np.sum] of a 1-D array. *)
Fixpoint Rsum (l : vector) : R :=
  match l with
  | [] => 0
  | x :: t => x + Rsum t
  end.

(** [np.mean] and [np.var] (population variance, [ddof = 0]) of a 1-D array. *)
Definition np_mean (c : vector) : R := Rsum c / INR (length c).
Definition np_var (c : vector) : R :=
  np_mean (map (fun x => (x - np_mean c) * (x - np_mean c)) c).

(** [np.mean(X, axis=0)]: the mean of every column. *)
Definition mean_axis0 (X : matrix) : vector := map np_mean (transpose X).

(** An operation between a 2-D array and a 1-D array broadcast along the
    rows: [X - v], [X / v]. *)
Definition broadcast (f : R -> R -> R) (X : matrix) (v : vector) : matrix :=
  map (fun r => map (fun p => f (fst p) (snd p)) (combine r v)) X.

(** [a.dot(b)] of two 1-D arrays and [A.dot(B)] of two 2-D arrays. *)
Definition dotprod (a b : vector) : R :=
  Rsum (map (fun p => fst p * snd p) (combine a b)).
Definition dot (A B : matrix) : matrix :=
  map (fun a => map (fun b => dotprod a b) (transpose B)) A.

(** ** Part 1: load and standardize *)

(** The pivot table [M]: a rating, or [NaN] where a user has not rated a
    movie. *)
Definition raw_matrix := list (list (option R)).

(** [df1 = M.replace(np.nan, 0, regex=True)]. *)
Definition replace_nan_0 (M : raw_matrix) : matrix :=
  map (map (fun x => match x with Some v => v | None => 0 end)) M.

(** sklearn's [_handle_zeros_in_scale]: [scale[scale == 0.0] = 1.0]. *)
Definition handle_zeros_in_scale (s : R) : R :=
  if Req_dec_T s 0 then 1 else s.

(** The attributes [mean_], [var_] and [scale_] that [StandardScaler.fit]
    computes, one per column. *)
Definition mean_ (X : matrix) : vector := mean_axis0 X.
Definition var_ (X : matrix) : vector := map np_var (transpose X).
Definition scale_ (X : matrix) : vector :=
  map (fun v => handle_zeros_in_scale (sqrt v)) (var_ X).

(** [StandardScaler().fit_transform(X)]: [X -= mean_; X /= scale_]. *)
Definition StandardScaler_fit_transform (X : matrix) : matrix :=
  broadcast Rdiv (broadcast Rminus X (mean_ X)) (scale_ X).

(** What a cell of the notebook does: it returns a value or raises.
    [ValueError] is what sklearn's input validation raises on an array
    with no row or no column; [DegenerateColumn] and
    [InsufficientSamples] are the failures the specification names. *)
Inductive failure : Type :=
  | ValueError
  | DegenerateColumn
  | InsufficientSamples.

Inductive outcome (A : Type) : Type :=
  | returned (a : A)
  | raised (e : failure).
Arguments returned {A} a.
Arguments raised {A} e.

(** The standardization stage under the FillZero policy (cell 10):
    [X_std = StandardScaler().fit_transform(M.replace(np.nan, 0))]. *)
Definition standardize (M : raw_matrix) : outcome matrix :=
  let df1 := replace_nan_0 M in
  if (Nat.eqb (nrows df1) 0 || Nat.eqb (ncols df1) 0)%bool
  then raised ValueError
  else returned (StandardScaler_fit_transform df1).

(** ** Part 2: covariance matrix *)

(** The result of a numpy division.  Dividing by zero raises nothing:
    numpy warns and stores [nan] or [inf], here [nonfinite]. *)
Inductive npfloat : Type :=
  | fin (r : R)
  | nonfinite.

(** [x / d] for an array entry [x] and a Python integer [d]. *)
Definition true_divide (x : R) (d : Z) : npfloat :=
  if (d =? 0)%Z then nonfinite else fin (x / IZR d).

(** [x * f] where [f] is the result of a division. *)
Definition np_multiply (x : R) (f : npfloat) : npfloat :=
  match f with
  | fin r => fin (x * r)
  | nonfinite => nonfinite
  end.

(** Cell 13:
    [mean_vec = np.mean(X_std, axis=0)]
    [cov_mat = (X_std - mean_vec).T.dot((X_std - mean_vec)) / (X_std.shape[0]-1)] *)
Definition mean_vec (X_std : matrix) : vector := mean_axis0 X_std.

Definition cov_mat (X_std : matrix) : list (list npfloat) :=
  let centered := broadcast Rminus X_std (mean_vec X_std) in
  map (map (fun x => true_divide x (Z.of_nat (nrows X_std) - 1)))
      (dot (transpose centered) centered).

(** The covariance stage: the cell has no check on the number of rows
    and no statement that raises. *)
Definition covariance (X_std : matrix) : outcome (list (list npfloat)) :=
  returned (cov_mat X_std).

(** What [np.cov] returns: a 2-D array, or a 0-d array once [squeeze]
    has removed both axes of a [1 x 1] result. *)
Inductive ndarray : Type :=
  | array0d (x : npfloat)
  | array2d (rows : list (list npfloat)).

(** [c.squeeze()] of a square 2-D array: only the shape [(1, 1)] has
    axes of length one. *)
Definition squeeze (c : list (list npfloat)) : ndarray :=
  match c with
  | [[x]] => array0d x
  | _ => array2d c
  end.

(** [np.cov(m)] with its defaults ([rowvar=True], [ddof=1]): each row of
    [m] is a variable, each column an observation.
    [if X.shape[0] == 0: return np.array([]).reshape(0, 0)]
    [avg = average(X, axis=1)]
    [fact = X.shape[1] - ddof; if fact <= 0: warn; fact = 0.0]
    [X -= avg[:, None]; c = dot(X, X.T); c *= np.true_divide(1, fact)]
    [return c.squeeze()] *)
Definition np_cov (m : matrix) : ndarray :=
  match m with
  | [] => array2d []
  | _ =>
    let avg := map np_mean m in
    let fact := Z.max 0 (Z.of_nat (ncols m) - 1) in
    let X := map (fun p => map (fun x => x - snd p) (fst p)) (combine m avg) in
    let c := dot X (transpose X) in
    squeeze (map (map (fun x => np_multiply x (true_divide 1 fact))) c)
  end.

(** ** Part 3: selecting principal components *)

(** Cell 20, on the arrays [np.linalg.eig] returned:
    [eig_pairs = [(np.abs(eig_vals[i]), eig_vecs[:,i])
                  for i in range(len(eig_vals))]] *)
Definition eig_pairs (eig_vals : vector) (eig_vecs : matrix)
  : list (R * vector) :=
  map (fun i => (Rabs (nth i eig_vals 0), col i eig_vecs))
      (seq 0 (length eig_vals)).

(** A list of eigenvalues printed in descending order. *)
Fixpoint descending (l : vector) : Prop :=
  match l with
  | [] => True
  | x :: t =>
    match t with
    | [] => True
    | y :: _ => y <= x
    end /\ descending t
  end.

(** [np.cumsum] of a 1-D array. *)
Fixpoint cumsum_from (acc : R) (l : vector) : vector :=
  match l with
  | [] => []
  | x :: t => (acc + x) :: cumsum_from (acc + x) t
  end.
Definition np_cumsum (l : vector) : vector := cumsum_from 0 l.

(** ** The names the notebook binds *)

(** Cell 9, the imports: the names they bind.  The class of sklearn is
    bound as [sklearnPCA]; [from wpca import PCA] is commented out.
    [from matplotlib import *] binds the public names of the package
    [matplotlib], which has no [PCA]; they are not listed. *)
Definition cell_9_names : list String.string :=
  [ "pd"; "np"; "StandardScaler"; "plt"; "register_cmap"; "stats";
    "sklearnPCA"; "seaborn" ]%string.

(** The names bound once cells 9 to 20 have run. *)
Definition notebook_names : list String.string :=
  cell_9_names
  ++ [ "movies"; "ratings"; "replace_name"; "M"; "m"; "df1"; "X_std";
       "mean_vec"; "cov_mat"; "eig_vals"; "eig_vecs"; "eig_pairs"; "i" ]%string.

Definition name_bound (name : String.string) (names : list String.string)
  : bool :=
  existsb (String.eqb name) names.

(** What evaluating a cell gives: a value, or the [NameError] Python
    raises when it reads a name that is not bound. *)
Inductive evaluation (A : Type) : Type :=
  | evaluated (a : A)
  | NameError.
Arguments evaluated {A} a.
Arguments NameError {A}.

(** Cell 24:
    [pca = PCA().fit(X_std)]
    [plt.plot(np.cumsum(pca.explained_variance_ratio_))]
    Python reads the name [PCA] first.  [fit_ratio] stands for the
    [explained_variance_ratio_] that the class bound to that name would
    fit; sklearn's own code is not modelled. *)
Definition cell_24 (names : list String.string) (fit_ratio : matrix -> vector)
           (X_std : matrix) : evaluation vector :=
  if name_bound "PCA"%string names
  then evaluated (np_cumsum (fit_ratio X_std))
  else NameError.

(** ** Properties of the arrays *)

(** A column whose entries are all equal. *)
Definition constant (c : vector) : Prop :=
  forall x y, In x c -> In y c -> x = y.

(** The invariant of a standardized matrix: every column has mean 0 and
    variance 1, or variance 0 where the raw column was constant. *)
Definition standardized (N D : nat) (X : matrix) : Prop :=
  has_shape N D X
  /\ forall j, (j < D)%nat ->
       np_mean (col j X) = 0
       /\ (np_var (col j X) = 1 \/ np_var (col j X) = 0).

(** What [np.linalg.eig] promises of each pair it returns:
    [cov . v = lambda * v]. *)
Definition eigenpair (cov : matrix) (lambda : R) (v : vector) : Prop :=
  map (fun r => dotprod r v) cov = map (fun x => lambda * x) v.

(** ** Projection *)

(** The sum of [f 0 .. f (n - 1)]. *)
Definition bigsum (n : nat) (f : nat -> R) : R := Rsum (map f (seq 0 n)).

(** Kronecker's delta, the entries of the identity matrix. *)
Definition delta (i j : nat) : R := if Nat.eqb i j then 1 else 0.

Definition identity (D : nat) : matrix :=
  map (fun i => map (fun j => delta i j) (seq 0 D)) (seq 0 D).

(** Modelled from the spec: the Projector, which the notebook has no
    cell for (its one projection is sklearn's
    [PCA(n_components=2).fit_transform]).  [project(std, basis)] is the
    matrix product [reduced[i] = std[i] . basis], where the basis holds
    the selected eigenvectors as its columns. *)
Definition project (std basis : matrix) : matrix := dot std basis.

(** Modelled from the spec: the reconstruction
    [std_approx = reduced . basis^T]. *)
Definition reconstruct (reduced basis : matrix) : matrix :=
  dot reduced (transpose basis).

(** Modelled from the spec: the full basis of all [D] ranked
    components, a [D x D] array whose columns are unit-length and
    mutually orthogonal eigenvectors, [basis^T . basis = I]. *)
Definition full_basis (D : nat) (basis : matrix) : Prop :=
  has_shape D D basis /\ dot (transpose basis) basis = identity D.

(** ** Quadratic forms *)

(** [v.dot(C.dot(v))], the quadratic form of a square array. *)
Definition quadratic_form (C : matrix) (v : vector) : R :=
  dotprod v (map (fun r => dotprod r v) C).

(** ** Part 1, the tables: [movies.csv], [ratings.csv] and the pivot *)

(** A row of [movies.csv] and a row of [ratings.csv]. *)
Record movie : Type := {
  movies_movieId : nat;
  title : String.string;
  genres : String.string
}.

Record ratings_csv_row : Type := {
  csv_userId : nat;
  csv_movieId : nat;
  csv_rating : R;
  timestamp : nat
}.

(** A row of [ratings] once [timestamp] is dropped; the column
    [movieId] holds an id at first and a title after the renaming. *)
Record rating_row (A : Type) : Type := {
  userId : nat;
  movieId : A;
  rating : R
}.
Arguments userId {A} r.
Arguments movieId {A} r.
Arguments rating {A} r.

(** [ratings.drop(['timestamp'], axis=1, inplace=True)]. *)
Definition drop_timestamp (ratings : list ratings_csv_row)
  : list (rating_row nat) :=
  map (fun r => {| userId := csv_userId r; movieId := csv_movieId r;
                   rating := csv_rating r |}) ratings.

(** What cell 10 can raise: the [IndexError] of [values[0]] on an empty
    selection, or what sklearn raises. *)
Inductive py_exception : Type :=
  | IndexError
  | Sklearn (e : failure).

Inductive result (A : Type) : Type :=
  | value (a : A)
  | exception (e : py_exception).
Arguments value {A} a.
Arguments exception {A} e.

(** [def replace_name(x):
       return movies[movies['movieId']==x].title.values[0]] *)
Definition replace_name (movies : list movie) (x : nat)
  : result String.string :=
  match map title (filter (fun m => Nat.eqb (movies_movieId m) x) movies) with
  | [] => exception IndexError
  | t :: _ => value t
  end.

(** [Series.map(f)]: [f] on every entry in turn; the first exception
    ends the call. *)
Fixpoint series_map {A B} (f : A -> result B) (s : list A) : result (list B) :=
  match s with
  | [] => value []
  | x :: t =>
    match f x with
    | exception e => exception e
    | value y =>
      match series_map f t with
      | exception e => exception e
      | value ys => value (y :: ys)
      end
    end
  end.

(** [ratings.movieId = ratings.movieId.map(replace_name)]. *)
Definition rename_movies (movies : list movie) (ratings : list (rating_row nat))
  : result (list (rating_row String.string)) :=
  match series_map (replace_name movies) (map movieId ratings) with
  | exception e => exception e
  | value titles =>
    value (map (fun p => {| userId := userId (fst p); movieId := snd p;
                            rating := rating (fst p) |})
               (combine ratings titles))
  end.

(** The rows of [ratings] after the renaming, next to the rows before. *)
Definition renamed (movies : list movie) (r : rating_row nat)
           (n : rating_row String.string) : Prop :=
  userId n = userId r /\ rating n = rating r
  /\ replace_name movies (movieId r) = value (movieId n).

(** The labels of a pivot table are ordered: integers by value, strings
    byte by byte. *)
Class Key (K : Type) : Type := {
  compare_keys : K -> K -> comparison;
  compare_keys_spec : forall x y,
    CompareSpec (x = y) (compare_keys x y = Lt) (compare_keys y x = Lt)
                (compare_keys x y);
  compare_keys_trans : forall x y z,
    compare_keys x y = Lt -> compare_keys y z = Lt -> compare_keys x z = Lt;
  compare_keys_irrefl : forall x, compare_keys x x <> Lt
}.

#[global, refine] Instance nat_Key : Key nat :=
  {| compare_keys := Nat.compare |}.
Proof.
  - intros x y. destruct (Nat.compare_spec x y); constructor; auto;
      now apply Nat.compare_lt_iff.
  - intros x y z. rewrite !Nat.compare_lt_iff. lia.
  - intros x. rewrite Nat.compare_lt_iff. lia.
Defined.

#[global, refine] Instance string_Key : Key String.string :=
  {| compare_keys := OrdersEx.String_as_OT.compare |}.
Proof.
  - intros x y.
    destruct (OrdersEx.String_as_OT.compare_spec x y); constructor; auto.
  - intros x y z.
    exact (@RelationClasses.StrictOrder_Transitive _ _ OrdersEx.String_as_OT.lt_strorder x y z).
  - intros x.
    exact (@RelationClasses.StrictOrder_Irreflexive _ _ OrdersEx.String_as_OT.lt_strorder x).
Defined.

Definition key_eqb {K} `{Key K} (x y : K) : bool :=
  match compare_keys x y with
  | Eq => true
  | _ => false
  end.

(** The sorted list of the distinct labels of a column. *)
Fixpoint insert_unique {K} `{Key K} (x : K) (l : list K) : list K :=
  match l with
  | [] => [x]
  | y :: t =>
    match compare_keys x y with
    | Lt => x :: y :: t
    | Eq => y :: t
    | Gt => y :: insert_unique x t
    end
  end.

Definition sorted_unique {K} `{Key K} (l : list K) : list K :=
  fold_right insert_unique [] l.

Fixpoint ascending {K} `{Key K} (l : list K) : Prop :=
  match l with
  | [] => True
  | x :: t =>
    match t with
    | [] => True
    | y :: _ => compare_keys x y = Lt
    end /\ ascending t
  end.

(** A data frame: row labels, column labels and the 2-D array of its
    values, [NaN] being [None]. *)
Record DataFrame (K : Type) : Type := {
  index : list nat;
  columns : list K;
  values : raw_matrix
}.
Arguments index {K} d.
Arguments columns {K} d.
Arguments values {K} d.

(** [M.shape]. *)
Definition shape {K} (M : DataFrame K) : nat * nat :=
  (length (index M), length (columns M)).

(** The ratings one user gave to one title, and their mean, [NaN] when
    there is none. *)
Definition ratings_of {K} `{Key K} (rows : list (rating_row K))
           (u : nat) (t : K) : vector :=
  map rating
      (filter (fun r => Nat.eqb (userId r) u && key_eqb (movieId r) t) rows).

Definition group_mean {K} `{Key K} (rows : list (rating_row K))
           (u : nat) (t : K) : option R :=
  match ratings_of rows u t with
  | [] => None
  | g => Some (np_mean g)
  end.

(** [ratings.pivot_table(index=['userId'], columns=['movieId'],
                         values='rating')], with the default
    [aggfunc='mean']: one row per user and one column per title, both
    sorted, holding the mean of the ratings of that user for that
    title. *)
Definition pivot_table {K} `{Key K} (rows : list (rating_row K))
  : DataFrame K :=
  let users := sorted_unique (map userId rows) in
  let titles := sorted_unique (map movieId rows) in
  {| index := users;
     columns := titles;
     values := map (fun u => map (fun t => group_mean rows u t) titles)
                   users |}.

(** Cell 10 as a whole, from the two tables to [X_std]. *)
Definition load_and_standardize (movies : list movie)
           (ratings : list ratings_csv_row) : result matrix :=
  match rename_movies movies (drop_timestamp ratings) with
  | exception e => exception e
  | value named =>
    match standardize (values (pivot_table named)) with
    | returned X_std => value X_std
    | raised e => exception (Sklearn e)
    end
  end.

(** Two small tables in the format of the CSV files; two movies share a
    title. *)
Definition example_movies : list movie :=
  [ {| movies_movieId := 1; title := "Toy Story (1995)"%string;
       genres := "Animation"%string |};
    {| movies_movieId := 2; title := "Heat (1995)"%string;
       genres := "Action"%string |};
    {| movies_movieId := 3; title := "Heat (1995)"%string;
       genres := "Crime"%string |} ].

Definition example_ratings : list ratings_csv_row :=
  [ {| csv_userId := 7; csv_movieId := 2; csv_rating := 4; timestamp := 10 |};
    {| csv_userId := 3; csv_movieId := 1; csv_rating := 5; timestamp := 11 |};
    {| csv_userId := 7; csv_movieId := 3; csv_rating := 2; timestamp := 12 |} ].

Definition example_named : list (rating_row String.string) :=
  [ {| userId := 7; movieId := "Heat (1995)"%string; rating := 4 |};
    {| userId := 3; movieId := "Toy Story (1995)"%string; rating := 5 |};
    {| userId := 7; movieId := "Heat (1995)"%string; rating := 2 |} ].

(** * Facts about arrays *)

Lemma has_shapeb_spec {A} (N D : nat) (X : list (list A)) :
  has_shapeb N D X = true <-> has_shape N D X.
Proof.
  unfold has_shapeb, has_shape.
  rewrite andb_true_iff, Nat.eqb_eq, forallb_forall, Forall_forall.
  split; intros [H1 H2]; split; auto; intros r Hr.
  - apply Nat.eqb_eq; auto.
  - apply Nat.eqb_eq; auto.
Qed.

(** The shape of a concrete array, by computation. *)
Ltac shape_by_computation := apply has_shapeb_spec; reflexivity.

Lemma has_shape_ncols {A} (N D : nat) (X : list (list A)) :
  has_shape N D X -> (0 < N)%nat -> ncols X = D.
Proof.
  intros [HN HD] Hpos. destruct X as [|r X]; simpl in *.
  - lia.
  - now inversion HD.
Qed.

Lemma has_shape_row {A} (N D : nat) (X : list (list A)) (i : nat) :
  has_shape N D X -> (i < N)%nat -> length (nth i X []) = D.
Proof.
  intros [HN HD] Hi. rewrite Forall_forall in HD.
  apply HD, nth_In. lia.
Qed.

Lemma col_length (j : nat) (X : matrix) : length (col j X) = length X.
Proof. unfold col. apply length_map. Qed.

Lemma nth_col (i j : nat) (X : matrix) : nth i (col j X) 0 = entry X i j.
Proof.
  unfold col, entry.
  assert (H0 : 0 = (fun r : list R => nth j r 0) []) by (destruct j; reflexivity).
  rewrite H0 at 1. exact (map_nth (fun r : list R => nth j r 0) X [] i).
Qed.

Lemma nth_map_in {A B} (f : A -> B) (l : list A) (d : A) (d' : B) (n : nat) :
  (n < length l)%nat -> nth n (map f l) d' = f (nth n l d).
Proof.
  revert n. induction l as [|x l IH]; intros [|n] Hn; simpl in *; try lia; auto.
  apply IH. lia.
Qed.

Lemma transpose_length (X : matrix) : length (transpose X) = ncols X.
Proof. unfold transpose. now rewrite length_map, length_seq. Qed.

Lemma nth_transpose (j : nat) (X : matrix) :
  (j < ncols X)%nat -> nth j (transpose X) [] = col j X.
Proof.
  intros Hj. unfold transpose.
  rewrite (nth_map_in _ _ 0%nat) by now rewrite length_seq.
  now rewrite seq_nth.
Qed.

Lemma transpose_shape (N D : nat) (X : matrix) :
  has_shape N D X -> (0 < N)%nat -> has_shape D N (transpose X).
Proof.
  intros HX HN. pose proof (has_shape_ncols N D X HX HN) as Hc.
  split.
  - now rewrite transpose_length.
  - unfold transpose. rewrite Forall_map, Forall_forall. intros j _.
    rewrite col_length. apply HX.
Qed.

Lemma nth_combine_map {A B C} (f : A * B -> C) (a : list A) (b : list B)
      (da : A) (db : B) (dc : C) (j : nat) :
  (j < length a)%nat -> (j < length b)%nat ->
  nth j (map f (combine a b)) dc = f (nth j a da, nth j b db).
Proof.
  intros Ha Hb.
  rewrite (nth_map_in _ _ (da, db)) by (rewrite length_combine; lia).
  f_equal. revert b j Ha Hb.
  induction a as [|x a IH]; intros [|y b] [|j] Ha Hb; simpl in *; try lia; auto.
  apply IH; lia.
Qed.

Lemma broadcast_shape (f : R -> R -> R) (N D : nat) (X : matrix) (v : vector) :
  has_shape N D X -> length v = D -> has_shape N D (broadcast f X v).
Proof.
  intros [HN HD] Hv. split.
  - unfold broadcast. now rewrite length_map.
  - unfold broadcast. rewrite Forall_map.
    eapply Forall_impl; [|exact HD]. cbv beta. intros r Hr.
    rewrite length_map, length_combine. lia.
Qed.

Lemma col_broadcast (f : R -> R -> R) (N D : nat) (X : matrix) (v : vector)
      (j : nat) :
  has_shape N D X -> length v = D -> (j < D)%nat ->
  col j (broadcast f X v) = map (fun x => f x (nth j v 0)) (col j X).
Proof.
  intros [HN HD] Hv Hj. unfold col, broadcast. rewrite !map_map.
  apply map_ext_in. intros r Hr.
  rewrite Forall_forall in HD. specialize (HD r Hr).
  now rewrite (nth_combine_map _ r v 0 0) by lia.
Qed.

Lemma entry_broadcast (f : R -> R -> R) (N D : nat) (X : matrix) (v : vector)
      (i j : nat) :
  has_shape N D X -> length v = D -> (i < N)%nat -> (j < D)%nat ->
  entry (broadcast f X v) i j = f (entry X i j) (nth j v 0).
Proof.
  intros HX Hv Hi Hj.
  rewrite <- !nth_col, (col_broadcast f N D) by assumption.
  rewrite (nth_map_in _ _ 0) by (rewrite col_length; destruct HX; lia).
  reflexivity.
Qed.

(** ** Sums *)

Lemma Rsum_map_plus {A} (f g : A -> R) (l : list A) :
  Rsum (map (fun x => f x + g x) l) = Rsum (map f l) + Rsum (map g l).
Proof. induction l as [|x l IH]; simpl; [|rewrite IH]; lra. Qed.

Lemma Rsum_map_scal {A} (a : R) (f : A -> R) (l : list A) :
  Rsum (map (fun x => a * f x) l) = a * Rsum (map f l).
Proof. induction l as [|x l IH]; simpl; [|rewrite IH]; lra. Qed.

Lemma Rsum_map_const {A} (a : R) (l : list A) :
  Rsum (map (fun _ => a) l) = INR (length l) * a.
Proof.
  induction l as [|x l IH]; [simpl; lra|].
  change (length (x :: l)) with (S (length l)). rewrite S_INR.
  simpl. rewrite IH. lra.
Qed.

Lemma Rsum_map_id (l : vector) : Rsum (map (fun x => x) l) = Rsum l.
Proof. now rewrite map_id. Qed.

Lemma Rsum_nonneg (l : vector) : Forall (fun x => 0 <= x) l -> 0 <= Rsum l.
Proof.
  induction 1 as [|x l Hx _ IH]; simpl; lra.
Qed.

Lemma Rsum_zero_all (l : vector) :
  Forall (fun x => 0 <= x) l -> Rsum l = 0 -> Forall (fun x => x = 0) l.
Proof.
  induction 1 as [|x l Hx Hl IH]; simpl; intros Hs; constructor.
  - pose proof (Rsum_nonneg l Hl). lra.
  - apply IH. pose proof (Rsum_nonneg l Hl). lra.
Qed.

Lemma INR_length_pos {A} (l : list A) : l <> [] -> 0 < INR (length l).
Proof.
  intros Hl. apply lt_0_INR. destruct l; [congruence|simpl; lia].
Qed.

(** ** Mean and variance of a column *)

Lemma squares_nonneg (m : R) (c : vector) :
  Forall (fun x => 0 <= x) (map (fun x => (x - m) * (x - m)) c).
Proof.
  rewrite Forall_map, Forall_forall. intros x _. exact (Rle_0_sqr (x - m)).
Qed.

Lemma np_var_nonneg (c : vector) : c <> [] -> 0 <= np_var c.
Proof.
  intros Hc. unfold np_var, np_mean at 1. rewrite length_map.
  apply Rmult_le_pos.
  - apply Rsum_nonneg, squares_nonneg.
  - left. apply Rinv_0_lt_compat, INR_length_pos, Hc.
Qed.

Lemma np_mean_constant (c : vector) (x : R) :
  constant c -> In x c -> np_mean c = x.
Proof.
  intros Hc Hx. unfold np_mean.
  assert (Hs : Rsum c = INR (length c) * x).
  { rewrite <- (Rsum_map_const x c), <- (map_id c) at 1.
    f_equal. apply map_ext_in. intros y Hy. now apply Hc. }
  rewrite Hs. field. apply Rgt_not_eq, INR_length_pos.
  intros ->. inversion Hx.
Qed.

Lemma np_var_zero_iff_constant (c : vector) :
  c <> [] -> (np_var c = 0 <-> constant c).
Proof.
  intros Hc. pose proof (INR_length_pos c Hc) as Hn. split.
  - intros Hv.
    assert (Hall : Forall (fun q => q = 0)
                     (map (fun x => (x - np_mean c) * (x - np_mean c)) c)).
    { apply Rsum_zero_all; [apply squares_nonneg|].
      unfold np_var, np_mean at 1 in Hv. rewrite length_map in Hv.
      apply Rmult_integral in Hv. destruct Hv as [Hv|Hv]; [exact Hv|].
      exfalso. apply (Rinv_neq_0_compat (INR (length c))); lra. }
    rewrite Forall_map, Forall_forall in Hall.
    intros x y Hx Hy.
    pose proof (Hall x Hx) as Ex. pose proof (Hall y Hy) as Ey.
    cbv beta in Ex, Ey.
    apply Rmult_integral in Ex. apply Rmult_integral in Ey. lra.
  - intros Hk. unfold np_var, np_mean at 1. rewrite length_map.
    assert (Hz : Rsum (map (fun x => (x - np_mean c) * (x - np_mean c)) c) = 0).
    { rewrite <- (Rmult_0_r (INR (length c))), <- (Rsum_map_const 0 c).
      f_equal. apply map_ext_in. intros x Hx.
      rewrite (np_mean_constant c x Hk Hx). ring. }
    rewrite Hz. unfold Rdiv. ring.
Qed.

Lemma Rsum_map_affine (m s : R) (c : vector) :
  Rsum (map (fun x => (x - m) / s) c) = (Rsum c - INR (length c) * m) / s.
Proof.
  induction c as [|x c IH].
  - simpl. unfold Rdiv. ring.
  - change (length (x :: c)) with (S (length c)). rewrite S_INR.
    simpl. rewrite IH. unfold Rdiv. ring.
Qed.

Lemma np_mean_centered_scaled (c : vector) (s : R) :
  c <> [] -> np_mean (map (fun x => (x - np_mean c) / s) c) = 0.
Proof.
  intros Hc. pose proof (INR_length_pos c Hc) as Hn.
  unfold np_mean at 1. rewrite length_map, Rsum_map_affine.
  unfold np_mean.
  replace (Rsum c - INR (length c) * (Rsum c / INR (length c))) with 0
    by (field; lra).
  unfold Rdiv. ring.
Qed.

Lemma np_var_centered_scaled (c : vector) (s : R) :
  c <> [] ->
  np_var (map (fun x => (x - np_mean c) / s) c) = np_var c * (/ s * / s).
Proof.
  intros Hc. unfold np_var at 1.
  rewrite (np_mean_centered_scaled c s Hc), map_map.
  unfold np_var. generalize (np_mean c). intros m.
  unfold np_mean. rewrite !length_map.
  assert (Hs : Rsum (map (fun x => ((x - m) / s - 0) * ((x - m) / s - 0)) c)
               = (/ s * / s) * Rsum (map (fun x => (x - m) * (x - m)) c)).
  { rewrite <- Rsum_map_scal. f_equal. apply map_ext. intros x.
    unfold Rdiv. ring. }
  rewrite Hs. unfold Rdiv. ring.
Qed.

(** A column that is not constant has a positive standard deviation, so
    [_handle_zeros_in_scale] leaves it as it is. *)
Lemma scale_nonconstant (c : vector) :
  c <> [] -> ~ constant c ->
  handle_zeros_in_scale (sqrt (np_var c)) = sqrt (np_var c)
  /\ sqrt (np_var c) * sqrt (np_var c) = np_var c
  /\ 0 < sqrt (np_var c).
Proof.
  intros Hc Hk. pose proof (np_var_nonneg c Hc) as Hv.
  assert (Hpos : 0 < np_var c).
  { destruct Hv as [Hv|Hv]; [exact Hv|].
    exfalso. apply Hk. apply np_var_zero_iff_constant; auto. }
  pose proof (sqrt_lt_R0 _ Hpos) as Hs.
  repeat split.
  - unfold handle_zeros_in_scale.
    destruct (Req_dec_T (sqrt (np_var c)) 0); [lra|reflexivity].
  - apply sqrt_sqrt. lra.
  - exact Hs.
Qed.


(** ** The standardized array, column by column *)

Lemma mean_axis0_length (X : matrix) : length (mean_axis0 X) = ncols X.
Proof. unfold mean_axis0. now rewrite length_map, transpose_length. Qed.

Lemma nth_mean_axis0 (X : matrix) (j : nat) :
  (j < ncols X)%nat -> nth j (mean_axis0 X) 0 = np_mean (col j X).
Proof.
  intros Hj. unfold mean_axis0.
  rewrite (nth_map_in np_mean (transpose X) [] 0 j)
    by now rewrite transpose_length.
  now rewrite nth_transpose.
Qed.

Lemma scale_length (X : matrix) : length (scale_ X) = ncols X.
Proof.
  unfold scale_, var_. now rewrite !length_map, transpose_length.
Qed.

Lemma nth_scale (X : matrix) (j : nat) :
  (j < ncols X)%nat ->
  nth j (scale_ X) 0 = handle_zeros_in_scale (sqrt (np_var (col j X))).
Proof.
  intros Hj. unfold scale_, var_. rewrite map_map.
  rewrite (nth_map_in (fun c => handle_zeros_in_scale (sqrt (np_var c)))
                      (transpose X) [] 0 j)
    by now rewrite transpose_length.
  now rewrite nth_transpose.
Qed.

Lemma fit_transform_shape (N D : nat) (X : matrix) :
  has_shape N D X -> (0 < N)%nat ->
  has_shape N D (StandardScaler_fit_transform X).
Proof.
  intros HX HN. pose proof (has_shape_ncols N D X HX HN) as Hc.
  unfold StandardScaler_fit_transform.
  apply broadcast_shape; [apply broadcast_shape; auto|].
  - unfold mean_. now rewrite mean_axis0_length.
  - now rewrite scale_length.
Qed.

Lemma col_fit_transform (N D : nat) (X : matrix) (j : nat) :
  has_shape N D X -> (0 < N)%nat -> (j < D)%nat ->
  col j (StandardScaler_fit_transform X)
  = map (fun x => (x - np_mean (col j X))
                  / handle_zeros_in_scale (sqrt (np_var (col j X))))
        (col j X).
Proof.
  intros HX HN Hj. pose proof (has_shape_ncols N D X HX HN) as Hc.
  unfold StandardScaler_fit_transform.
  assert (Hm : length (mean_ X) = D)
    by (unfold mean_; now rewrite mean_axis0_length).
  rewrite (col_broadcast Rdiv N D), (col_broadcast Rminus N D X); auto.
  - rewrite map_map. unfold mean_.
    rewrite nth_mean_axis0, nth_scale by lia. reflexivity.
  - now apply broadcast_shape.
  - now rewrite scale_length.
Qed.

(** ** Filling the missing ratings *)

Lemma replace_nan_0_shape (N D : nat) (M : raw_matrix) :
  has_shape N D M -> has_shape N D (replace_nan_0 M).
Proof.
  intros [HN HD]. split; unfold replace_nan_0.
  - now rewrite length_map.
  - rewrite Forall_map. eapply Forall_impl; [|exact HD].
    intros r Hr. now rewrite length_map.
Qed.

(** The stages keep the shape of the array they are given. *)
Create HintDb shapes.
#[local] Hint Resolve broadcast_shape fit_transform_shape
  replace_nan_0_shape : shapes.

Lemma entry_replace_nan_0 (M : raw_matrix) (i j : nat) :
  entry (replace_nan_0 M) i j
  = match nth j (nth i M []) None with Some v => v | None => 0 end.
Proof.
  unfold entry, replace_nan_0.
  set (h := fun x : option R => match x with Some v => v | None => 0 end).
  change (@nil R) with (map h []).
  rewrite (map_nth (map h) M [] i).
  change 0 with (h None) at 1.
  apply map_nth.
Qed.

Lemma standardize_returns (N D : nat) (M : raw_matrix) :
  has_shape N D M -> (0 < N)%nat -> (0 < D)%nat ->
  standardize M = returned (StandardScaler_fit_transform (replace_nan_0 M)).
Proof.
  intros HM HN HD. unfold standardize.
  pose proof (replace_nan_0_shape N D M HM) as HS.
  rewrite (has_shape_ncols N D _ HS HN).
  destruct HS as [HS _]. unfold nrows. rewrite HS.
  destruct N; [lia|]. destruct D; [lia|]. reflexivity.
Qed.

Lemma nonconstant_nonempty (c : vector) : ~ constant c -> c <> [].
Proof. intros Hk ->. apply Hk. intros x y []. Qed.

(** * Standardization *)

(** C1.  Under the FillZero policy every missing entry of the raw
    matrix becomes 0; then, for a column [j] that is not constant,
    [sigma_j > 0] and the entry in row [i] of the standardized matrix is
    [(raw[i][j] - mu_j) / sigma_j], where [mu_j] and [sigma_j] are the
    mean and the standard deviation of the filled column over all [N]
    rows, and the column of the result has mean 0 and variance 1. *)
Theorem standardize_fill_zero (N D : nat) (M : raw_matrix) (j : nat) :
  has_shape N D M -> (j < D)%nat ->
  ~ constant (col j (replace_nan_0 M)) ->
  exists X_std,
    standardize M = returned X_std
    /\ has_shape N D X_std
    /\ (forall i, (i < N)%nat ->
          entry (replace_nan_0 M) i j
          = match nth j (nth i M []) None with Some v => v | None => 0 end)
    /\ 0 < sqrt (np_var (col j (replace_nan_0 M)))
    /\ (forall i, (i < N)%nat ->
          entry X_std i j
          = (entry (replace_nan_0 M) i j - np_mean (col j (replace_nan_0 M)))
            / sqrt (np_var (col j (replace_nan_0 M))))
    /\ np_mean (col j X_std) = 0
    /\ np_var (col j X_std) = 1.
Proof.
  intros HM Hj Hk.
  pose proof (nonconstant_nonempty _ Hk) as Hne.
  pose proof (replace_nan_0_shape N D M HM) as HS.
  assert (HN : (0 < N)%nat).
  { destruct HS as [HS _]. destruct N; [|lia].
    exfalso. apply Hne. unfold col.
    apply length_zero_iff_nil in HS. now rewrite HS. }
  destruct (scale_nonconstant _ Hne Hk) as (Hscale & Hsq & Hpos).
  exists (StandardScaler_fit_transform (replace_nan_0 M)).
  pose proof (col_fit_transform N D _ j HS HN Hj) as Hcol.
  rewrite Hscale in Hcol.
  split; [apply (standardize_returns N D); auto; lia|].
  split; [auto with shapes|].
  split; [intros i _; apply entry_replace_nan_0|].
  split; [exact Hpos|].
  split; [|split].
  - intros i Hi. rewrite <- !nth_col, Hcol.
    rewrite (nth_map_in _ _ 0) by (rewrite col_length; destruct HS; lia).
    reflexivity.
  - rewrite Hcol. now apply np_mean_centered_scaled.
  - rewrite Hcol, np_var_centered_scaled by assumption.
    rewrite <- Rinv_mult, Hsq. field.
    pose proof (Rmult_lt_0_compat _ _ Hpos Hpos). lra.
Qed.

Lemma standardize_fill_zero_witness :
  exists X_std,
    standardize [[Some 1; None]; [Some 3; Some 2]] = returned X_std
    /\ has_shape 2 2 X_std
    /\ (forall i, (i < 2)%nat ->
          entry (replace_nan_0 [[Some 1; None]; [Some 3; Some 2]]) i 0
          = match nth 0 (nth i [[Some 1; None]; [Some 3; Some 2]] []) None
            with Some v => v | None => 0 end)
    /\ 0 < sqrt (np_var (col 0 (replace_nan_0 [[Some 1; None]; [Some 3; Some 2]])))
    /\ (forall i, (i < 2)%nat ->
          entry X_std i 0
          = (entry (replace_nan_0 [[Some 1; None]; [Some 3; Some 2]]) i 0
             - np_mean (col 0 (replace_nan_0 [[Some 1; None]; [Some 3; Some 2]])))
            / sqrt (np_var (col 0 (replace_nan_0 [[Some 1; None]; [Some 3; Some 2]]))))
    /\ np_mean (col 0 X_std) = 0
    /\ np_var (col 0 X_std) = 1.
Proof.
  apply (standardize_fill_zero 2 2 [[Some 1; None]; [Some 3; Some 2]] 0).
  - shape_by_computation.
  - lia.
  - simpl. intros Hk.
    specialize (Hk 1 3 (or_introl eq_refl) (or_intror (or_introl eq_refl))).
    lra.
Defined.





(** * Covariance *)

Lemma list2_ext {A} (d : A) (N D : nat) (X Y : list (list A)) :
  has_shape N D X -> has_shape N D Y ->
  (forall i j, (i < N)%nat -> (j < D)%nat ->
     nth j (nth i X []) d = nth j (nth i Y []) d) ->
  X = Y.
Proof.
  intros HX HY H.
  apply (nth_ext _ _ [] []); [destruct HX, HY; congruence|].
  intros i Hi. assert (Hi' : (i < N)%nat) by (destruct HX; lia).
  apply (nth_ext _ _ d d).
  - now rewrite (has_shape_row N D X), (has_shape_row N D Y).
  - intros j Hj. apply H; auto.
    now rewrite (has_shape_row N D X) in Hj.
Qed.

Lemma entry_transpose (X : matrix) (i j : nat) :
  (j < ncols X)%nat -> entry (transpose X) j i = entry X i j.
Proof.
  intros Hj. unfold entry at 1. rewrite nth_transpose by assumption.
  apply nth_col.
Qed.

Lemma transpose_transpose (N D : nat) (X : matrix) :
  has_shape N D X -> (0 < N)%nat -> (0 < D)%nat ->
  transpose (transpose X) = X.
Proof.
  intros HX HN HD.
  pose proof (transpose_shape N D X HX HN) as HT.
  pose proof (transpose_shape D N _ HT HD) as HTT.
  apply (list2_ext 0 N D); auto.
  intros i j Hi Hj. fold (entry (transpose (transpose X)) i j).
  rewrite entry_transpose by (rewrite (has_shape_ncols D N); auto).
  apply entry_transpose. rewrite (has_shape_ncols N D); auto.
Qed.

Lemma dotprod_comm (a b : vector) : dotprod a b = dotprod b a.
Proof.
  unfold dotprod. revert b.
  induction a as [|x a IH]; intros [|y b]; simpl; auto.
  rewrite IH. ring.
Qed.

Lemma dotprod_self_nonneg (a : vector) : 0 <= dotprod a a.
Proof.
  unfold dotprod. induction a as [|x a IH]; simpl; [lra|].
  pose proof (Rle_0_sqr x) as Hx. unfold Rsqr in Hx. lra.
Qed.

Lemma dotprod_cols (j k : nat) (X : matrix) :
  dotprod (col j X) (col k X) = Rsum (map (fun r => nth j r 0 * nth k r 0) X).
Proof.
  unfold dotprod, col. induction X as [|r X IH]; simpl; [reflexivity|].
  now rewrite IH.
Qed.

(** Entry [(j, k)] of [C.T.dot(C)] is the dot product of columns [j]
    and [k] of [C]. *)
Lemma nth_gram (C : matrix) (j k : nat) :
  (j < ncols C)%nat -> (k < ncols C)%nat ->
  nth k (nth j (dot (transpose C) C) []) 0 = dotprod (col j C) (col k C).
Proof.
  intros Hj Hk. unfold dot.
  rewrite (nth_map_in _ (transpose C) [] [] j) by now rewrite transpose_length.
  rewrite (nth_map_in _ (transpose C) [] 0 k) by now rewrite transpose_length.
  now rewrite !nth_transpose.
Qed.

Lemma gram_shape (C : matrix) :
  has_shape (ncols C) (ncols C) (dot (transpose C) C).
Proof.
  split; unfold dot.
  - now rewrite length_map, transpose_length.
  - rewrite Forall_map, Forall_forall. intros a _.
    now rewrite length_map, transpose_length.
Qed.

Lemma map2_shape {A B} (f : A -> B) (N D : nat) (X : list (list A)) :
  has_shape N D X -> has_shape N D (map (map f) X).
Proof.
  intros [HN HD]. split.
  - now rewrite length_map.
  - rewrite Forall_map. eapply Forall_impl; [|exact HD].
    intros r Hr. now rewrite length_map.
Qed.

Lemma nth_map2 {A B} (f : A -> B) (da : A) (db : B) (N D : nat)
      (X : list (list A)) (i j : nat) :
  has_shape N D X -> (i < N)%nat -> (j < D)%nat ->
  nth j (nth i (map (map f) X) []) db = f (nth j (nth i X []) da).
Proof.
  intros HX Hi Hj.
  rewrite (nth_map_in (map f) X [] [] i) by (destruct HX; lia).
  apply nth_map_in. now rewrite (has_shape_row N D X).
Qed.

Lemma centered_shape (N D : nat) (X : matrix) :
  has_shape N D X -> (0 < N)%nat ->
  has_shape N D (broadcast Rminus X (mean_vec X)).
Proof.
  intros HX HN. apply broadcast_shape; auto.
  unfold mean_vec. rewrite mean_axis0_length.
  now apply (has_shape_ncols N D).
Qed.

Lemma IZR_pred_nat (N : nat) : IZR (Z.of_nat N - 1) = INR N - 1.
Proof. now rewrite minus_IZR, <- INR_IZR_INZ. Qed.

(** The entries of [cov_mat], for any array with at least two rows. *)
Lemma nth_cov_mat (N D : nat) (X : matrix) (j k : nat) :
  has_shape N D X -> (2 <= N)%nat -> (j < D)%nat -> (k < D)%nat ->
  nth k (nth j (cov_mat X) []) nonfinite
  = fin (dotprod (col j (broadcast Rminus X (mean_vec X)))
                 (col k (broadcast Rminus X (mean_vec X)))
         / (INR N - 1)).
Proof.
  intros HX HN Hj Hk. unfold cov_mat.
  pose proof (centered_shape N D X HX ltac:(lia)) as HC.
  pose proof (has_shape_ncols N D _ HC ltac:(lia)) as Hc.
  set (C := broadcast Rminus X (mean_vec X)) in *.
  pose proof (gram_shape C) as HG. rewrite Hc in HG.
  rewrite (nth_map2 _ 0 nonfinite D D) by assumption.
  rewrite nth_gram by lia.
  unfold true_divide, nrows. destruct HX as [HXN _]. rewrite HXN.
  destruct (Z.eqb_spec (Z.of_nat N - 1) 0) as [E|E]; [lia|].
  now rewrite IZR_pred_nat.
Qed.

Lemma cov_mat_shape (N D : nat) (X : matrix) :
  has_shape N D X -> (0 < N)%nat -> has_shape D D (cov_mat X).
Proof.
  intros HX HN. unfold cov_mat. apply map2_shape.
  pose proof (centered_shape N D X HX HN) as HC.
  rewrite <- (has_shape_ncols N D _ HC HN) at 1 2.
  apply gram_shape.
Qed.

Lemma broadcast_minus_zero (N D : nat) (X : matrix) :
  has_shape N D X -> broadcast Rminus X (repeat 0 D) = X.
Proof.
  intros HX.
  assert (HB : has_shape N D (broadcast Rminus X (repeat 0 D)))
    by auto using repeat_length with shapes.
  apply (list2_ext 0 N D); auto.
  intros i j Hi Hj. fold (entry (broadcast Rminus X (repeat 0 D)) i j).
  rewrite (entry_broadcast Rminus N D) by (auto; apply repeat_length).
  rewrite nth_repeat. unfold entry. ring.
Qed.

Lemma mean_vec_standardized (N D : nat) (X : matrix) :
  standardized N D X -> (0 < N)%nat -> mean_vec X = repeat 0 D.
Proof.
  intros [HX Hm] HN. pose proof (has_shape_ncols N D X HX HN) as Hc.
  unfold mean_vec. apply (nth_ext _ _ 0 0).
  - now rewrite mean_axis0_length, repeat_length.
  - intros j Hj. rewrite mean_axis0_length in Hj.
    rewrite nth_mean_axis0, nth_repeat by assumption.
    apply Hm. lia.
Qed.

(** What standardization returns satisfies the invariant. *)
Lemma fit_transform_standardized (N D : nat) (X : matrix) :
  has_shape N D X -> (0 < N)%nat ->
  standardized N D (StandardScaler_fit_transform X).
Proof.
  intros HX HN. split; [auto with shapes|].
  intros j Hj. rewrite (col_fit_transform N D X j HX HN Hj).
  assert (Hne : col j X <> []).
  { intros E. apply (f_equal (@length R)) in E.
    rewrite col_length in E. destruct HX as [HX _]. simpl in E. lia. }
  split; [now apply np_mean_centered_scaled|].
  rewrite np_var_centered_scaled by assumption.
  destruct (Req_dec (np_var (col j X)) 0) as [E|E].
  - right. rewrite E. ring.
  - left.
    assert (Hk : ~ constant (col j X))
      by (intros Hk; apply E; now apply np_var_zero_iff_constant).
    destruct (scale_nonconstant _ Hne Hk) as (Hscale & Hsq & Hpos).
    rewrite Hscale, <- Rinv_mult, Hsq. now field.
Qed.

(** C2.  For a standardized [N x D] matrix with [N >= 2] the covariance
    stage computes (centered data)^T (centered data) / (N - 1), a
    [D x D] matrix, and its entry [(j, k)] is the unbiased estimator
    [sum_i std[i][j] * std[i][k] / (N - 1)]. *)
Theorem cov_mat_unbiased_estimator (N D : nat) (X_std : matrix) (j k : nat) :
  standardized N D X_std -> (2 <= N)%nat -> (j < D)%nat -> (k < D)%nat ->
  covariance X_std = returned (cov_mat X_std)
  /\ cov_mat X_std
     = map (map (fun x => fin (x / (INR N - 1))))
           (dot (transpose (broadcast Rminus X_std (mean_vec X_std)))
                (broadcast Rminus X_std (mean_vec X_std)))
  /\ has_shape D D (cov_mat X_std)
  /\ nth k (nth j (cov_mat X_std) []) nonfinite
     = fin (Rsum (map (fun r => nth j r 0 * nth k r 0) X_std) / (INR N - 1)).
Proof.
  intros HS HN Hj Hk. pose proof HS as [HX _].
  split; [reflexivity|]. split; [|split].
  - unfold cov_mat. apply map_ext. intros r. apply map_ext. intros x.
    unfold true_divide, nrows. destruct HX as [HXN _]. rewrite HXN.
    destruct (Z.eqb_spec (Z.of_nat N - 1) 0) as [E|E]; [lia|].
    now rewrite IZR_pred_nat.
  - apply (cov_mat_shape N D); auto. lia.
  - rewrite (nth_cov_mat N D) by assumption.
    rewrite (mean_vec_standardized N D) by (auto; lia).
    rewrite (broadcast_minus_zero N D) by assumption.
    now rewrite dotprod_cols.
Qed.

Lemma standardized_example : standardized 2 2 [[1; -1]; [-1; 1]].
Proof.
  split; [shape_by_computation|].
  intros [|[|j]] Hj; try lia; unfold np_var, np_mean; simpl; split;
    try (left; field); field.
Qed.

Lemma cov_mat_unbiased_estimator_witness :
  covariance [[1; -1]; [-1; 1]] = returned (cov_mat [[1; -1]; [-1; 1]])
  /\ cov_mat [[1; -1]; [-1; 1]]
     = map (map (fun x => fin (x / (INR 2 - 1))))
           (dot (transpose (broadcast Rminus [[1; -1]; [-1; 1]]
                                      (mean_vec [[1; -1]; [-1; 1]])))
                (broadcast Rminus [[1; -1]; [-1; 1]]
                           (mean_vec [[1; -1]; [-1; 1]])))
  /\ has_shape 2 2 (cov_mat [[1; -1]; [-1; 1]])
  /\ nth 1 (nth 0 (cov_mat [[1; -1]; [-1; 1]]) []) nonfinite
     = fin (Rsum (map (fun r => nth 0 r 0 * nth 1 r 0) [[1; -1]; [-1; 1]])
            / (INR 2 - 1)).
Proof.
  apply (cov_mat_unbiased_estimator 2 2 [[1; -1]; [-1; 1]] 0 1).
  - exact standardized_example.
  - lia.
  - lia.
  - lia.
Defined.

(** C4.  The covariance stage has no check on the
    number of rows and never fails: for every input it returns
    [cov_mat], which for an [N x D] input with [N >= 1] is a [D x D]
    matrix.  With [N >= 2] rows, so with [N = 2], every entry is a
    number; with [N = 1] the division by [N - 1 = 0] leaves a
    non-finite value in every entry. *)
Theorem covariance_returns (N D : nat) (X_std : matrix) :
  has_shape N D X_std ->
  covariance X_std = returned (cov_mat X_std)
  /\ covariance X_std <> raised InsufficientSamples
  /\ ((1 <= N)%nat -> has_shape D D (cov_mat X_std))
  /\ (N = 1%nat -> forall j k, (j < D)%nat -> (k < D)%nat ->
        nth k (nth j (cov_mat X_std) []) (fin 0) = nonfinite)
  /\ ((2 <= N)%nat -> forall j k, (j < D)%nat -> (k < D)%nat ->
        exists v, nth k (nth j (cov_mat X_std) []) nonfinite = fin v).
Proof.
  intros HX. split; [reflexivity|]. split; [discriminate|].
  split; [intros HN; apply (cov_mat_shape N D); [exact HX|lia]|]. split.
  - intros -> j k Hj Hk. unfold cov_mat.
    pose proof (centered_shape 1 D X_std HX ltac:(lia)) as HC.
    pose proof (has_shape_ncols 1 D _ HC ltac:(lia)) as Hc.
    pose proof (gram_shape (broadcast Rminus X_std (mean_vec X_std))) as HG.
    rewrite Hc in HG.
    rewrite (nth_map2 _ 0 (fin 0) D D) by assumption.
    unfold nrows. destruct HX as [HXN _]. rewrite HXN. reflexivity.
  - intros HN j k Hj Hk. rewrite (nth_cov_mat N D) by assumption.
    eexists. reflexivity.
Qed.

Lemma covariance_returns_witness :
  covariance [[1; -1]; [-1; 1]] = returned (cov_mat [[1; -1]; [-1; 1]])
  /\ covariance [[1; -1]; [-1; 1]] <> raised InsufficientSamples
  /\ ((1 <= 2)%nat -> has_shape 2 2 (cov_mat [[1; -1]; [-1; 1]]))
  /\ (2%nat = 1%nat -> forall j k, (j < 2)%nat -> (k < 2)%nat ->
        nth k (nth j (cov_mat [[1; -1]; [-1; 1]]) []) (fin 0) = nonfinite)
  /\ ((2 <= 2)%nat -> forall j k, (j < 2)%nat -> (k < 2)%nat ->
        exists v, nth k (nth j (cov_mat [[1; -1]; [-1; 1]]) []) nonfinite
                  = fin v).
Proof.
  apply (covariance_returns 2 2 [[1; -1]; [-1; 1]]).
  shape_by_computation.
Defined.

(** C4 at [N = 1].  A single row is standardized to zeros, and on that
    one-row input the covariance stage returns a matrix of non-finite
    entries; it does not fail with [InsufficientSamples]. *)
Lemma covariance_one_row_returns :
  standardize [[Some 3; None]] = returned [[0; 0]]
  /\ covariance [[0; 0]]
     = returned [[nonfinite; nonfinite]; [nonfinite; nonfinite]]
  /\ covariance [[0; 0]] <> raised InsufficientSamples.
Proof.
  assert (E : forall x, np_mean [x] = x)
    by (intros x; unfold np_mean; cbn; field).
  split; [|split].
  - cbn. rewrite !E. unfold Rdiv.
    replace ((3 - 3) * / handle_zeros_in_scale (sqrt (np_var [3]))) with 0
      by ring.
    replace ((0 - 0) * / handle_zeros_in_scale (sqrt (np_var [0]))) with 0
      by ring.
    reflexivity.
  - reflexivity.
  - discriminate.
Qed.

(** * The two covariance computations *)

Lemma np_cov_nonempty (m : matrix) :
  m <> [] ->
  np_cov m
  = squeeze (map (map (fun x => np_multiply x
                         (true_divide 1 (Z.max 0 (Z.of_nat (ncols m) - 1)))))
               (dot (map (fun p => map (fun x => x - snd p) (fst p))
                         (combine m (map np_mean m)))
                    (transpose (map (fun p => map (fun x => x - snd p) (fst p))
                                    (combine m (map np_mean m)))))).
Proof. intros Hm. destruct m; [contradiction|reflexivity]. Qed.

(** [X -= avg[:, None]] on [X_std.T] is the transpose of
    [X_std - mean_vec]. *)
Lemma center_rows_transpose (N D : nat) (X : matrix) :
  has_shape N D X -> (0 < N)%nat -> (0 < D)%nat ->
  map (fun p => map (fun x => x - snd p) (fst p))
      (combine (transpose X) (map np_mean (transpose X)))
  = transpose (broadcast Rminus X (mean_vec X)).
Proof.
  intros HX HN HD.
  pose proof (has_shape_ncols N D X HX HN) as Hc.
  pose proof (transpose_shape N D X HX HN) as HT.
  pose proof (centered_shape N D X HX HN) as HC.
  pose proof (transpose_shape N D _ HC HN) as HCT.
  assert (Hlen : length (map np_mean (transpose X)) = D)
    by now rewrite length_map, transpose_length.
  apply (list2_ext 0 D N); auto.
  - split.
    + rewrite length_map, length_combine, Hlen, transpose_length. lia.
    + rewrite Forall_map, Forall_forall. intros [r a] Hin.
      apply in_combine_l in Hin. simpl. rewrite length_map.
      destruct HT as [_ HT]. rewrite Forall_forall in HT. now apply HT.
  - intros j i Hj Hi.
    rewrite (nth_combine_map _ (transpose X) (map np_mean (transpose X))
                             [] 0 [] j)
      by (rewrite ?transpose_length; lia).
    cbn [fst snd].
    rewrite (nth_map_in _ _ 0) by now rewrite (has_shape_row D N).
    fold (entry (transpose X) j i).
    fold (entry (transpose (broadcast Rminus X (mean_vec X))) j i).
    rewrite !entry_transpose by (rewrite ?(has_shape_ncols N D _ HC); lia).
    rewrite (entry_broadcast Rminus N D); auto.
Qed.

(** [np.cov(X_std.T)] is the matrix of the explicit formula, squeezed. *)
Lemma np_cov_transpose (N D : nat) (X : matrix) :
  has_shape N D X -> (2 <= N)%nat -> (0 < D)%nat ->
  np_cov (transpose X) = squeeze (cov_mat X).
Proof.
  intros HX HN HD.
  pose proof (transpose_shape N D X HX ltac:(lia)) as HT.
  pose proof (centered_shape N D X HX ltac:(lia)) as HC.
  rewrite np_cov_nonempty.
  2:{ intros E. destruct HT as [HT _]. rewrite E in HT. simpl in HT. lia. }
  rewrite (center_rows_transpose N D) by (auto; lia).
  rewrite (transpose_transpose N D) by (auto; lia).
  rewrite (has_shape_ncols D N _ HT HD).
  unfold cov_mat. f_equal.
  apply map_ext. intros r. apply map_ext. intros x.
  unfold nrows. destruct HX as [HXN _]. rewrite HXN.
  rewrite Z.max_r by lia. unfold true_divide.
  destruct (Z.eqb_spec (Z.of_nat N - 1) 0) as [E|E]; [lia|].
  cbn. f_equal. unfold Rdiv. ring.
Qed.

Lemma squeeze_two_rows (c : list (list npfloat)) :
  (2 <= length c)%nat -> squeeze c = array2d c.
Proof.
  destruct c as [|r [|r' c]]; simpl; try lia.
  intros _. destruct r as [|x [|y r]]; reflexivity.
Qed.

Lemma squeeze_one_entry (c : list (list npfloat)) :
  has_shape 1 1 c -> exists x, c = [[x]] /\ squeeze c = array0d x.
Proof.
  intros [HN HD]. destruct c as [|r [|r' c]]; simpl in HN; try lia.
  inversion HD as [|? ? Hr _]. subst.
  destruct r as [|x [|y r]]; simpl in Hr; try lia.
  exists x. split; reflexivity.
Qed.

(** C3.  For every matrix with [N >= 2] rows, in particular every
    standardized one, the covariance matrix is symmetric,
    [cov[j][k] = cov[k][j]], and every diagonal entry is a number
    [>= 0].  [np.cov(X_std.T)], which cell 15 uses, is the same matrix
    (squeezed when it is [1 x 1]). *)
Theorem cov_mat_symmetric_diag_nonneg (N D : nat) (X_std : matrix) :
  has_shape N D X_std -> (2 <= N)%nat ->
  (forall j k, (j < D)%nat -> (k < D)%nat ->
     nth k (nth j (cov_mat X_std) []) nonfinite
     = nth j (nth k (cov_mat X_std) []) nonfinite)
  /\ (forall j, (j < D)%nat ->
        exists v, nth j (nth j (cov_mat X_std) []) nonfinite = fin v /\ 0 <= v)
  /\ ((0 < D)%nat -> np_cov (transpose X_std) = squeeze (cov_mat X_std)).
Proof.
  intros HX HN. split; [|split].
  - intros j k Hj Hk. rewrite !(nth_cov_mat N D) by assumption.
    now rewrite dotprod_comm.
  - intros j Hj. rewrite (nth_cov_mat N D) by assumption.
    eexists. split; [reflexivity|].
    apply Rmult_le_pos; [apply dotprod_self_nonneg|].
    left. apply Rinv_0_lt_compat.
    assert (H2 : 2 <= INR N) by (apply (le_INR 2); lia). lra.
  - intros HD. now apply (np_cov_transpose N D).
Qed.

Lemma cov_mat_symmetric_diag_nonneg_witness :
  (forall j k, (j < 2)%nat -> (k < 2)%nat ->
     nth k (nth j (cov_mat [[1; -1]; [-1; 1]]) []) nonfinite
     = nth j (nth k (cov_mat [[1; -1]; [-1; 1]]) []) nonfinite)
  /\ (forall j, (j < 2)%nat ->
        exists v, nth j (nth j (cov_mat [[1; -1]; [-1; 1]]) []) nonfinite = fin v
                  /\ 0 <= v)
  /\ ((0 < 2)%nat ->
      np_cov (transpose [[1; -1]; [-1; 1]])
      = squeeze (cov_mat [[1; -1]; [-1; 1]])).
Proof.
  apply (cov_mat_symmetric_diag_nonneg 2 2 [[1; -1]; [-1; 1]]).
  - shape_by_computation.
  - lia.
Defined.

(** X25.  For a matrix with [N >= 2] rows and
    [D >= 2] columns, in particular a standardized one, the explicit
    formula and [np.cov(X_std.T)] give the same [D x D] matrix.  With a
    single column [np.cov] squeezes its [1 x 1] result: it returns a
    0-d array holding the one entry of the formula's [1 x 1] matrix. *)
Theorem np_cov_agrees_with_formula (N D : nat) (X_std : matrix) :
  has_shape N D X_std -> (2 <= N)%nat ->
  ((2 <= D)%nat -> np_cov (transpose X_std) = array2d (cov_mat X_std))
  /\ (D = 1%nat ->
      exists v, cov_mat X_std = [[v]]
                /\ np_cov (transpose X_std) = array0d v).
Proof.
  intros HX HN.
  pose proof (cov_mat_shape N D X_std HX ltac:(lia)) as HS.
  split.
  - intros HD. rewrite (np_cov_transpose N D) by (auto; lia).
    apply squeeze_two_rows. destruct HS as [HS _]. lia.
  - intros ->. rewrite (np_cov_transpose N 1) by (auto; lia).
    apply squeeze_one_entry, HS.
Qed.

Lemma np_cov_agrees_with_formula_witness :
  ((2 <= 2)%nat ->
   np_cov (transpose [[1; -1]; [-1; 1]])
   = array2d (cov_mat [[1; -1]; [-1; 1]]))
  /\ (2%nat = 1%nat ->
      exists v, cov_mat [[1; -1]; [-1; 1]] = [[v]]
                /\ np_cov (transpose [[1; -1]; [-1; 1]]) = array0d v).
Proof.
  apply (np_cov_agrees_with_formula 2 2 [[1; -1]; [-1; 1]]).
  - shape_by_computation.
  - lia.
Defined.

(** C10 at [D = 1].  On the standardized matrix [[1], [-1]], with one
    column and [N = 2] rows, the formula of cell 13 gives the [1 x 1]
    matrix [[2]] and [np.cov(X_std.T)] the 0-d array [2]: the one line
    that the cell's comment says creates the same covariance matrix
    does not create a [D x D] matrix. *)
Lemma np_cov_single_column_squeezed :
  standardized 2 1 [[1]; [-1]]
  /\ cov_mat [[1]; [-1]] = [[fin 2]]
  /\ np_cov (transpose [[1]; [-1]]) = array0d (fin 2)
  /\ np_cov (transpose [[1]; [-1]]) <> array2d (cov_mat [[1]; [-1]]).
Proof.
  assert (E : np_mean [1; -1] = 0) by (unfold np_mean; cbn; field).
  assert (Hcov : np_cov (transpose [[1]; [-1]]) = array0d (fin 2)).
  { cbn. rewrite E. do 2 f_equal. field. }
  split; [|split; [|split]].
  - split; [shape_by_computation|].
    intros [|j] Hj; [|lia]. cbn [col map nth]. split; [exact E|].
    left. unfold np_var. rewrite E. unfold np_mean. cbn. field.
  - cbn. rewrite E. do 3 f_equal. field.
  - exact Hcov.
  - rewrite Hcov. discriminate.
Qed.

(** * Ranking *)

(** The eigenvalues of [eig_pairs] are the absolute values of
    [eig_vals], in the order [np.linalg.eig] returned them: the cell
    builds the list and never sorts it. *)
Lemma eig_pairs_order (eig_vals : vector) (eig_vecs : matrix) :
  map fst (eig_pairs eig_vals eig_vecs) = map Rabs eig_vals.
Proof.
  unfold eig_pairs. rewrite map_map. cbn [fst].
  rewrite <- (map_map (fun i => nth i eig_vals 0) Rabs). f_equal.
  apply (nth_ext _ _ 0 0).
  - now rewrite length_map, length_seq.
  - intros i Hi. rewrite length_map, length_seq in Hi.
    rewrite (nth_map_in _ _ 0%nat) by now rewrite length_seq.
    now rewrite seq_nth.
Qed.

(** C5 on unsorted eigenvalues.  The raw matrix [[5, 1], [5, 3]]
    standardizes to [[0, -1], [0, 1]], whose covariance matrix is
    [[0, 0], [0, 2]]; its eigenpairs in the order of the diagonal are
    [(0, (1, 0))] and [(2, (0, 1))].  On them [eig_pairs] keeps that
    order: the eigenvalues it lists are 0 then 2, not descending. *)
Lemma eig_pairs_not_sorted :
  standardize [[Some 5; Some 1]; [Some 5; Some 3]] = returned [[0; -1]; [0; 1]]
  /\ cov_mat [[0; -1]; [0; 1]] = [[fin 0; fin 0]; [fin 0; fin 2]]
  /\ eigenpair [[0; 0]; [0; 2]] 0 [1; 0]
  /\ eigenpair [[0; 0]; [0; 2]] 2 [0; 1]
  /\ eig_pairs [0; 2] [[1; 0]; [0; 1]] = [(0, [1; 0]); (2, [0; 1])]
  /\ ~ descending (map fst (eig_pairs [0; 2] [[1; 0]; [0; 1]])).
Proof.
  assert (E0 : np_mean [0; 0] = 0) by (unfold np_mean; cbn; field).
  assert (E1 : np_mean [-1; 1] = 0) by (unfold np_mean; cbn; field).
  split; [|split; [|split; [|split; [|split]]]].
  - assert (M5 : np_mean [5; 5] = 5) by (unfold np_mean; cbn; field).
    assert (M2 : np_mean [1; 3] = 2) by (unfold np_mean; cbn; field).
    assert (V5 : np_var [5; 5] = 0)
      by (unfold np_var; rewrite M5; unfold np_mean; cbn; field).
    assert (V2 : np_var [1; 3] = 1)
      by (unfold np_var; rewrite M2; unfold np_mean; cbn; field).
    cbn. rewrite M5, M2, V5, V2, sqrt_0, sqrt_1.
    unfold handle_zeros_in_scale.
    destruct (Req_dec_T 0 0); [|lra]. destruct (Req_dec_T 1 0); [lra|].
    repeat (f_equal; try field).
  - cbn. rewrite E0, E1.
    repeat (f_equal; try field).
  - unfold eigenpair, dotprod. cbn. repeat (f_equal; try ring).
  - unfold eigenpair, dotprod. cbn. repeat (f_equal; try ring).
  - unfold eig_pairs. cbn.
    rewrite Rabs_R0, (Rabs_pos_eq 2) by lra. reflexivity.
  - rewrite eig_pairs_order. cbn.
    rewrite Rabs_R0, (Rabs_pos_eq 2) by lra. lra.
Qed.

(** * Explained variance *)

Lemma cumsum_from_length (acc : R) (l : vector) :
  length (cumsum_from acc l) = length l.
Proof.
  revert acc. induction l as [|x l IH]; intros acc; simpl; auto.
Qed.

(** C6 at every input.  Cell 24 reads the name [PCA], which no cell
    binds (the class is imported as [sklearnPCA]): it raises
    [NameError] whatever [X_std] is, before any explained-variance
    ratio or cumulative sum is computed. *)
Theorem cell_24_raises_NameError (fit_ratio : matrix -> vector)
        (X_std : matrix) :
  name_bound "sklearnPCA"%string notebook_names = true
  /\ name_bound "PCA"%string notebook_names = false
  /\ cell_24 notebook_names fit_ratio X_std = NameError.
Proof. repeat split; reflexivity. Qed.

(** C9 at [N < D].  For the standardized [2 x 3] matrix
    [[1, 0, 0], [-1, 0, 0]] cell 24 raises [NameError]: it exposes no
    explained-variance-ratio sequence, of length 3 or any other. *)
Theorem cell_24_exposes_no_sequence (fit_ratio : matrix -> vector) :
  standardized 2 3 [[1; 0; 0]; [-1; 0; 0]]
  /\ cell_24 notebook_names fit_ratio [[1; 0; 0]; [-1; 0; 0]] = NameError.
Proof.
  split; [|reflexivity].
  split; [shape_by_computation|].
  intros [|[|[|j]]] Hj; try lia; unfold np_var, np_mean; cbn; split;
    try (left; field); try (right; field); field.
Qed.

(** * Projection and reconstruction *)

Lemma bigsum_ext (n : nat) (f g : nat -> R) :
  (forall i, (i < n)%nat -> f i = g i) -> bigsum n f = bigsum n g.
Proof.
  intros H. unfold bigsum. f_equal. apply map_ext_in.
  intros i Hi. apply in_seq in Hi. apply H. lia.
Qed.

Lemma bigsum_plus (n : nat) (f g : nat -> R) :
  bigsum n (fun i => f i + g i) = bigsum n f + bigsum n g.
Proof. apply Rsum_map_plus. Qed.

Lemma bigsum_scal (n : nat) (a : R) (f : nat -> R) :
  bigsum n (fun i => a * f i) = a * bigsum n f.
Proof. apply Rsum_map_scal. Qed.

Lemma bigsum_S (n : nat) (f : nat -> R) :
  bigsum (S n) f = bigsum n f + f n.
Proof.
  unfold bigsum. rewrite seq_S, map_app. cbn [map Nat.add].
  generalize (map f (seq 0 n)). intros l.
  induction l as [|x l IH]; simpl; [|rewrite IH]; lra.
Qed.

Lemma bigsum_zero (n : nat) : bigsum n (fun _ => 0) = 0.
Proof.
  unfold bigsum. rewrite Rsum_map_const. ring.
Qed.

Lemma bigsum_one (n : nat) : bigsum n (fun _ => 1) = INR n.
Proof.
  unfold bigsum. rewrite Rsum_map_const, length_seq. ring.
Qed.

Lemma bigsum_swap (n m : nat) (f : nat -> nat -> R) :
  bigsum n (fun i => bigsum m (fun j => f i j))
  = bigsum m (fun j => bigsum n (fun i => f i j)).
Proof.
  induction n as [|n IH].
  - cbn. symmetry. apply bigsum_zero.
  - rewrite bigsum_S, IH, <- bigsum_plus.
    apply bigsum_ext. intros j _. now rewrite bigsum_S.
Qed.

Lemma bigsum_delta_r (n j : nat) (g : nat -> R) :
  (j < n)%nat -> bigsum n (fun i => g i * delta i j) = g j.
Proof.
  induction n as [|n IH]; intros Hj; [lia|].
  rewrite bigsum_S. unfold delta at 2.
  destruct (Nat.eqb_spec n j) as [->|Hne].
  - rewrite (bigsum_ext j _ (fun _ => 0)).
    + rewrite bigsum_zero. ring.
    + intros i Hi. unfold delta.
      destruct (Nat.eqb_spec i j); [lia|ring].
  - rewrite IH by lia. ring.
Qed.

Lemma bigsum_nonneg_zero (n : nat) (f : nat -> R) :
  (forall i, (i < n)%nat -> 0 <= f i) -> bigsum n f = 0 ->
  forall i, (i < n)%nat -> f i = 0.
Proof.
  intros Hf Hs i Hi. unfold bigsum in Hs.
  assert (Hall : Forall (fun x => x = 0) (map f (seq 0 n))).
  { apply Rsum_zero_all; [|exact Hs].
    rewrite Forall_map, Forall_forall. intros k Hk.
    apply in_seq in Hk. apply Hf. lia. }
  rewrite Forall_map, Forall_forall in Hall.
  apply Hall, in_seq. lia.
Qed.

Lemma bigsum_nonneg (n : nat) (f : nat -> R) :
  (forall i, (i < n)%nat -> 0 <= f i) -> 0 <= bigsum n f.
Proof.
  intros Hf. unfold bigsum. apply Rsum_nonneg.
  rewrite Forall_map, Forall_forall. intros k Hk.
  apply in_seq in Hk. apply Hf. lia.
Qed.

Lemma delta_sym (i j : nat) : delta i j = delta j i.
Proof. unfold delta. now rewrite Nat.eqb_sym. Qed.

Lemma delta_refl (i : nat) : delta i i = 1.
Proof. unfold delta. now rewrite Nat.eqb_refl. Qed.

(** A square array whose columns are orthonormal has orthonormal rows.
    With [G = B B^T]: [G] is symmetric and [G G = G], so the squared
    entries of [G - I] add up to [trace I - trace G = 0]. *)
Section Orthonormal.

Variable D : nat.
Variable b : nat -> nat -> R.
Hypothesis columns_orthonormal :
  forall k l, (k < D)%nat -> (l < D)%nat ->
    bigsum D (fun i => b i k * b i l) = delta k l.

Let G (i j : nat) : R := bigsum D (fun k => b i k * b j k).

Lemma column_times_gram (k j : nat) :
  (k < D)%nat -> (j < D)%nat -> bigsum D (fun m => b m k * G m j) = b j k.
Proof.
  intros Hk Hj. unfold G.
  rewrite (bigsum_ext D _
             (fun m => bigsum D (fun l => b j l * (b m k * b m l)))).
  2:{ intros m _. rewrite <- bigsum_scal. apply bigsum_ext.
      intros l _. ring. }
  rewrite bigsum_swap.
  rewrite (bigsum_ext D _ (fun l => b j l * delta l k)).
  2:{ intros l Hl. rewrite bigsum_scal, columns_orthonormal by assumption.
      now rewrite delta_sym. }
  now apply bigsum_delta_r.
Qed.

Lemma gram_idempotent (i j : nat) :
  (i < D)%nat -> (j < D)%nat -> bigsum D (fun m => G i m * G m j) = G i j.
Proof.
  intros Hi Hj.
  rewrite (bigsum_ext D _
             (fun m => bigsum D (fun k => b i k * (b m k * G m j)))).
  2:{ intros m _. unfold G at 1. rewrite Rmult_comm, <- bigsum_scal.
      apply bigsum_ext. intros k _. ring. }
  rewrite bigsum_swap. unfold G at 2.
  apply bigsum_ext. intros k Hk.
  now rewrite bigsum_scal, column_times_gram.
Qed.

Lemma gram_sym (i j : nat) : G i j = G j i.
Proof. unfold G. apply bigsum_ext. intros k _. ring. Qed.

Lemma gram_trace : bigsum D (fun i => G i i) = INR D.
Proof.
  unfold G. rewrite bigsum_swap.
  rewrite (bigsum_ext D _ (fun _ => 1)); [apply bigsum_one|].
  intros k Hk. rewrite columns_orthonormal by assumption.
  apply delta_refl.
Qed.

Lemma gram_minus_identity_row (i : nat) :
  (i < D)%nat ->
  bigsum D (fun j => (G i j - delta i j) * (G i j - delta i j)) = 1 - G i i.
Proof.
  intros Hi.
  rewrite (bigsum_ext D _
             (fun j => G i j * G j i
                       + (-2 * (G i j * delta j i) + delta i j * delta j i))).
  2:{ intros j _. rewrite (gram_sym j i), (delta_sym j i). ring. }
  rewrite bigsum_plus, bigsum_plus, bigsum_scal.
  rewrite gram_idempotent, !bigsum_delta_r by assumption.
  rewrite delta_refl. ring.
Qed.

Lemma rows_orthonormal (i j : nat) :
  (i < D)%nat -> (j < D)%nat -> G i j = delta i j.
Proof.
  intros Hi Hj.
  assert (Hsq : forall x : R, 0 <= x * x) by (intros x; exact (Rle_0_sqr x)).
  assert (Htot : bigsum D (fun i =>
                   bigsum D (fun j => (G i j - delta i j)
                                      * (G i j - delta i j))) = 0).
  { rewrite (bigsum_ext D _ (fun i => 1 + -1 * G i i)).
    - rewrite bigsum_plus, bigsum_scal, bigsum_one, gram_trace. ring.
    - intros i' Hi'. rewrite gram_minus_identity_row by assumption. ring. }
  pose proof (bigsum_nonneg_zero D _
                (fun i' _ => bigsum_nonneg D _ (fun j' _ => Hsq _))
                Htot i Hi) as Hrow.
  pose proof (bigsum_nonneg_zero D _ (fun j' _ => Hsq _) Hrow j Hj) as Hij.
  cbv beta in Hij. apply Rmult_integral in Hij. lra.
Qed.

End Orthonormal.

(** ** Matrix products of arrays, entry by entry *)

Lemma dotprod_bigsum (n : nat) (a c : vector) :
  length a = n -> length c = n ->
  dotprod a c = bigsum n (fun i => nth i a 0 * nth i c 0).
Proof.
  intros Ha Hc. unfold dotprod, bigsum. f_equal.
  apply (nth_ext _ _ 0 0).
  - rewrite !length_map, length_combine, length_seq. lia.
  - intros i Hi. rewrite length_map, length_combine in Hi.
    rewrite (nth_combine_map _ a c 0 0) by lia.
    rewrite (nth_map_in _ _ 0%nat) by (rewrite length_seq; lia).
    rewrite seq_nth by lia. reflexivity.
Qed.

Lemma has_shape_ncols_square {A} (D : nat) (B : list (list A)) :
  has_shape D D B -> ncols B = D.
Proof.
  intros [HN HD]. destruct B as [|r B]; simpl in *; [lia|].
  now inversion HD.
Qed.

Lemma dot_shape (n m p : nat) (A B : matrix) :
  has_shape n m A -> ncols B = p -> has_shape n p (dot A B).
Proof.
  intros [HN HD] Hp. split; unfold dot.
  - now rewrite length_map.
  - rewrite Forall_map, Forall_forall. intros a _.
    now rewrite length_map, transpose_length.
Qed.

Lemma entry_dot (n m p : nat) (A B : matrix) (i k : nat) :
  has_shape n m A -> has_shape m p B -> ncols B = p ->
  (i < n)%nat -> (k < p)%nat ->
  entry (dot A B) i k = bigsum m (fun j => entry A i j * entry B j k).
Proof.
  intros HA HB Hp Hi Hk. unfold entry at 1, dot.
  rewrite (nth_map_in _ A [] [] i) by (destruct HA; lia).
  rewrite (nth_map_in _ (transpose B) [] 0 k)
    by (rewrite transpose_length; lia).
  rewrite nth_transpose by lia.
  rewrite (dotprod_bigsum m).
  - apply bigsum_ext. intros j _. now rewrite nth_col.
  - now apply (has_shape_row n m).
  - rewrite col_length. apply HB.
Qed.

Lemma entry_identity (D i j : nat) :
  (i < D)%nat -> (j < D)%nat -> entry (identity D) i j = delta i j.
Proof.
  intros Hi Hj. unfold entry, identity.
  rewrite (nth_map_in _ (seq 0 D) 0%nat [] i) by now rewrite length_seq.
  rewrite (nth_map_in _ (seq 0 D) 0%nat 0 j) by now rewrite length_seq.
  now rewrite !seq_nth.
Qed.

Lemma ncols_transpose_square (D : nat) (B : matrix) :
  has_shape D D B -> has_shape D D (transpose B) /\ ncols (transpose B) = D.
Proof.
  intros HB. destruct D as [|D].
  - destruct HB as [HB _]. apply length_zero_iff_nil in HB. subst B.
    split; [split; [reflexivity|constructor]|reflexivity].
  - pose proof (transpose_shape _ _ B HB ltac:(lia)) as HT.
    split; [exact HT|]. now apply has_shape_ncols_square.
Qed.

Lemma full_basis_columns (D : nat) (B : matrix) (k l : nat) :
  full_basis D B -> (k < D)%nat -> (l < D)%nat ->
  bigsum D (fun i => entry B i k * entry B i l) = delta k l.
Proof.
  intros [HB HI] Hk Hl.
  destruct (ncols_transpose_square D B HB) as [HT _].
  pose proof (has_shape_ncols_square D B HB) as Hc.
  rewrite <- (entry_identity D k l), <- HI by assumption.
  rewrite (entry_dot D D D) by assumption.
  apply bigsum_ext. intros i _. now rewrite entry_transpose by lia.
Qed.

(** C7.  Projecting a matrix onto the full basis of all [D] components
    and reconstructing with [reduced . basis^T] gives the matrix back. *)
Theorem project_reconstruct_full_basis (N D : nat) (std basis : matrix) :
  has_shape N D std -> full_basis D basis ->
  has_shape N D (project std basis)
  /\ reconstruct (project std basis) basis = std.
Proof.
  intros HX HF. pose proof HF as [HB HI].
  destruct (ncols_transpose_square D basis HB) as [HT HTc].
  pose proof (has_shape_ncols_square D basis HB) as Hc.
  assert (HP : has_shape N D (project std basis))
    by now apply (dot_shape N D D).
  split; [exact HP|].
  assert (HR : has_shape N D (reconstruct (project std basis) basis))
    by now apply (dot_shape N D D).
  apply (list2_ext 0 N D); auto.
  intros i j Hi Hj.
  fold (entry (reconstruct (project std basis) basis) i j).
  fold (entry std i j).
  unfold reconstruct. rewrite (entry_dot N D D) by assumption.
  rewrite (bigsum_ext D _
             (fun k => bigsum D (fun l =>
                entry std i l * (entry basis l k * entry basis j k)))).
  2:{ intros k Hk. unfold project.
      rewrite (entry_dot N D D), entry_transpose by (assumption || lia).
      rewrite Rmult_comm, <- bigsum_scal.
      apply bigsum_ext. intros l _. ring. }
  rewrite bigsum_swap.
  rewrite (bigsum_ext D _ (fun l => entry std i l * delta l j)).
  - now apply bigsum_delta_r.
  - intros l Hl. rewrite bigsum_scal. f_equal.
    apply (rows_orthonormal D (entry basis)); auto.
    intros k k' Hk Hk'. now apply full_basis_columns.
Qed.

Lemma rotation_full_basis : full_basis 2 [[3 / 5; -4 / 5]; [4 / 5; 3 / 5]].
Proof.
  split; [shape_by_computation|].
  unfold dot, dotprod, identity, delta. cbn.
  repeat (f_equal; try field).
Qed.

Lemma project_reconstruct_full_basis_witness :
  has_shape 2 2 (project [[1; -1]; [-1; 1]] [[3 / 5; -4 / 5]; [4 / 5; 3 / 5]])
  /\ reconstruct
       (project [[1; -1]; [-1; 1]] [[3 / 5; -4 / 5]; [4 / 5; 3 / 5]])
       [[3 / 5; -4 / 5]; [4 / 5; 3 / 5]]
     = [[1; -1]; [-1; 1]].
Proof.
  apply (project_reconstruct_full_basis 2 2).
  - shape_by_computation.
  - exact rotation_full_basis.
Defined.

(** * Further properties of the cells *)

(** ** Standardization as a whole *)

Lemma handle_zeros_in_scale_one_or_zero (v : R) :
  v = 1 \/ v = 0 -> handle_zeros_in_scale (sqrt v) = 1.
Proof.
  unfold handle_zeros_in_scale. intros [-> | ->].
  - rewrite sqrt_1. destruct (Req_dec_T 1 0); [lra|reflexivity].
  - rewrite sqrt_0. destruct (Req_dec_T 0 0); [reflexivity|lra].
Qed.

Lemma fit_transform_of_standardized (N D : nat) (X : matrix) :
  standardized N D X -> (0 < N)%nat -> StandardScaler_fit_transform X = X.
Proof.
  intros [HX Hm] HN.
  apply (list2_ext 0 N D); auto with shapes.
  intros i j Hi Hj.
  fold (entry (StandardScaler_fit_transform X) i j). fold (entry X i j).
  rewrite <- !nth_col, (col_fit_transform N D X j HX HN Hj).
  rewrite (nth_map_in _ _ 0) by (rewrite col_length; destruct HX; lia).
  destruct (Hm j Hj) as [Hmean Hvar].
  rewrite Hmean, (handle_zeros_in_scale_one_or_zero _ Hvar). field.
Qed.

(** X1.  Standardizing a matrix that is already standardized returns it
    unchanged. *)
Theorem fit_transform_fixes_standardized (N D : nat) (X : matrix) :
  standardized N D X -> (0 < N)%nat -> StandardScaler_fit_transform X = X.
Proof. exact (fit_transform_of_standardized N D X). Qed.

Lemma fit_transform_fixes_standardized_witness :
  StandardScaler_fit_transform [[1; -1]; [-1; 1]] = [[1; -1]; [-1; 1]].
Proof.
  apply (fit_transform_fixes_standardized 2 2).
  - exact standardized_example.
  - lia.
Defined.

(** X2.  Standardizing twice is standardizing once. *)
Theorem fit_transform_idempotent (N D : nat) (X : matrix) :
  has_shape N D X -> (0 < N)%nat ->
  StandardScaler_fit_transform (StandardScaler_fit_transform X)
  = StandardScaler_fit_transform X.
Proof.
  intros HX HN. apply (fit_transform_of_standardized N D); auto.
  now apply fit_transform_standardized.
Qed.

Lemma fit_transform_idempotent_witness :
  StandardScaler_fit_transform (StandardScaler_fit_transform [[1; 5]; [3; 5]])
  = StandardScaler_fit_transform [[1; 5]; [3; 5]].
Proof.
  apply (fit_transform_idempotent 2 2).
  - shape_by_computation.
  - lia.
Defined.

Lemma col_map2 (f : R -> R) (N D : nat) (X : matrix) (j : nat) :
  has_shape N D X -> (j < D)%nat ->
  col j (map (map f) X) = map f (col j X).
Proof.
  intros [HN HD] Hj. unfold col. rewrite !map_map.
  apply map_ext_in. intros r Hr. rewrite Forall_forall in HD.
  apply nth_map_in. rewrite (HD r Hr). exact Hj.
Qed.

Lemma np_mean_affine (a b : R) (c : vector) :
  c <> [] -> np_mean (map (fun x => a * x + b) c) = a * np_mean c + b.
Proof.
  intros Hc. pose proof (INR_length_pos c Hc) as Hn.
  unfold np_mean. rewrite length_map.
  rewrite (Rsum_map_plus (fun x => a * x) (fun _ => b)).
  rewrite (Rsum_map_scal a (fun x => x)), Rsum_map_id, Rsum_map_const.
  field. lra.
Qed.

Lemma np_var_affine (a b : R) (c : vector) :
  c <> [] -> np_var (map (fun x => a * x + b) c) = a * a * np_var c.
Proof.
  intros Hc. unfold np_var. rewrite np_mean_affine, map_map by assumption.
  generalize (np_mean c). intros m. unfold np_mean. rewrite !length_map.
  assert (Hs : Rsum (map (fun x => (a * x + b - (a * m + b))
                                   * (a * x + b - (a * m + b))) c)
               = a * a * Rsum (map (fun x => (x - m) * (x - m)) c)).
  { rewrite <- Rsum_map_scal. f_equal. apply map_ext. intros x. ring. }
  rewrite Hs. unfold Rdiv. ring.
Qed.

Lemma fit_transform_affine (N D : nat) (X : matrix) (a b : R) :
  has_shape N D X -> (0 < N)%nat -> 0 < a ->
  StandardScaler_fit_transform (map (map (fun x => a * x + b)) X)
  = StandardScaler_fit_transform X.
Proof.
  intros HX HN Ha.
  pose proof (map2_shape (fun x => a * x + b) N D X HX) as HY.
  apply (list2_ext 0 N D); auto with shapes.
  intros i j Hi Hj.
  fold (entry (StandardScaler_fit_transform (map (map (fun x => a * x + b)) X))
              i j).
  fold (entry (StandardScaler_fit_transform X) i j).
  rewrite <- !nth_col, !(col_fit_transform N D) by assumption.
  rewrite (col_map2 _ N D) by assumption.
  assert (Hlen : length (col j X) = N) by (rewrite col_length; apply HX).
  assert (Hne : col j X <> [])
    by (intros E; rewrite E in Hlen; simpl in Hlen; lia).
  rewrite np_mean_affine, np_var_affine by assumption.
  rewrite (nth_map_in _ _ 0) by (rewrite length_map; lia).
  rewrite (nth_map_in _ (col j X) 0 0 i) by lia.
  rewrite (nth_map_in _ (col j X) 0 0 i) by lia.
  set (c := col j X) in *. set (x := nth i c 0).
  pose proof (np_var_nonneg c Hne) as Hv.
  assert (Hsqrt : sqrt (a * a * np_var c) = a * sqrt (np_var c)).
  { rewrite sqrt_mult by nra. now rewrite sqrt_square by lra. }
  rewrite Hsqrt.
  destruct (Req_dec (np_var c) 0) as [E|E].
  - assert (Hk : constant c) by now apply np_var_zero_iff_constant.
    assert (Hx : np_mean c = x) by (apply np_mean_constant; auto; apply nth_In; lia).
    rewrite Hx. unfold Rdiv. ring.
  - assert (Hk : ~ constant c)
      by (intros Hk; apply E; now apply np_var_zero_iff_constant).
    destruct (scale_nonconstant c Hne Hk) as (Hscale & _ & Hpos).
    rewrite Hscale. unfold handle_zeros_in_scale.
    destruct (Req_dec_T (a * sqrt (np_var c)) 0) as [Z|Z]; [nra|].
    field. lra.
Qed.

(** X3.  Standardization does not depend on the scale of the ratings:
    replacing every entry [x] by [a * x + b] with [a > 0] gives the same
    standardized matrix. *)
Theorem fit_transform_affine_invariant (N D : nat) (X : matrix) (a b : R) :
  has_shape N D X -> (0 < N)%nat -> 0 < a ->
  StandardScaler_fit_transform (map (map (fun x => a * x + b)) X)
  = StandardScaler_fit_transform X.
Proof. exact (fit_transform_affine N D X a b). Qed.

Lemma fit_transform_affine_invariant_witness :
  StandardScaler_fit_transform (map (map (fun x => 2 * x + 1)) [[1; 5]; [3; 5]])
  = StandardScaler_fit_transform [[1; 5]; [3; 5]].
Proof.
  apply (fit_transform_affine_invariant 2 2).
  - shape_by_computation.
  - lia.
  - lra.
Defined.

Lemma replace_nan_0_scaled (a : R) (M : raw_matrix) :
  replace_nan_0 (map (map (option_map (fun x => a * x))) M)
  = map (map (fun x => a * x + 0)) (replace_nan_0 M).
Proof.
  unfold replace_nan_0. rewrite !map_map. apply map_ext. intros r.
  rewrite !map_map. apply map_ext. intros [x|]; simpl; ring.
Qed.

Lemma ncols_map2 {A B} (f : A -> B) (X : list (list A)) :
  ncols (map (map f) X) = ncols X.
Proof. destruct X as [|r X]; simpl; [reflexivity|apply length_map]. Qed.

(** X4.  The whole standardization stage does not depend on the unit
    of the ratings: multiplying every rating present by [a > 0] (the
    missing ones stay missing) changes nothing in what the stage
    returns or raises. *)
Theorem standardize_scale_invariant (N D : nat) (M : raw_matrix) (a : R) :
  has_shape N D M -> 0 < a ->
  standardize (map (map (option_map (fun x => a * x))) M) = standardize M.
Proof.
  intros HM Ha. unfold standardize.
  rewrite replace_nan_0_scaled.
  unfold nrows. rewrite ncols_map2, length_map.
  pose proof (replace_nan_0_shape N D M HM) as HS.
  destruct (Nat.eqb (length (replace_nan_0 M)) 0) eqn:E0; [reflexivity|].
  destruct (Nat.eqb (ncols (replace_nan_0 M)) 0) eqn:E1; [reflexivity|].
  cbn [orb]. f_equal.
  apply (fit_transform_affine N D); auto.
  apply Nat.eqb_neq in E0. destruct HS as [HS _]. lia.
Qed.

Lemma standardize_scale_invariant_witness :
  standardize (map (map (option_map (fun x => 2 * x)))
                   [[Some 1; None]; [Some 3; Some 2]])
  = standardize [[Some 1; None]; [Some 3; Some 2]].
Proof.
  apply (standardize_scale_invariant 2 2).
  - shape_by_computation.
  - lra.
Defined.

(** X5.  On a matrix with at least one row and one column the
    standardization stage returns a standardized matrix of the same
    shape: every column has mean 0 and variance 1 or 0.  With no row or
    no column it raises [ValueError]. *)
Theorem standardize_outcome (N D : nat) (M : raw_matrix) :
  has_shape N D M ->
  ((0 < N)%nat -> (0 < D)%nat ->
   exists X_std, standardize M = returned X_std /\ standardized N D X_std)
  /\ (N = 0%nat \/ D = 0%nat -> standardize M = raised ValueError).
Proof.
  intros HM. pose proof (replace_nan_0_shape N D M HM) as HS. split.
  - intros HN HD. eexists. split; [now apply (standardize_returns N D)|].
    now apply fit_transform_standardized.
  - intros H0. unfold standardize, nrows.
    destruct HS as [HSN HSD]. rewrite HSN.
    destruct N as [|N]; [reflexivity|].
    destruct H0 as [H0|H0]; [discriminate|]. subst D.
    destruct (replace_nan_0 M) as [|r X]; [discriminate|].
    inversion HSD as [|? ? Hr _]. simpl. rewrite Hr. reflexivity.
Qed.

Lemma standardize_outcome_witness :
  ((0 < 2)%nat -> (0 < 2)%nat ->
   exists X_std,
     standardize [[Some 1; None]; [Some 3; Some 2]] = returned X_std
     /\ standardized 2 2 X_std)
  /\ (2%nat = 0%nat \/ 2%nat = 0%nat ->
      standardize [[Some 1; None]; [Some 3; Some 2]] = raised ValueError).
Proof.
  apply (standardize_outcome 2 2). shape_by_computation.
Defined.

(** ** The covariance matrix of standardized data *)

Lemma dotprod_self_squares (c : vector) :
  dotprod c c = Rsum (map (fun x => x * x) c).
Proof.
  unfold dotprod. induction c as [|x c IH]; simpl; [reflexivity|].
  now rewrite IH.
Qed.

Lemma dotprod_self_variance (c : vector) :
  c <> [] -> np_mean c = 0 -> dotprod c c = INR (length c) * np_var c.
Proof.
  intros Hc Hm. pose proof (INR_length_pos c Hc) as Hn.
  rewrite dotprod_self_squares. unfold np_var. rewrite Hm.
  unfold np_mean. rewrite length_map.
  replace (map (fun x => (x - 0) * (x - 0)) c) with (map (fun x => x * x) c)
    by (apply map_ext; intros; ring).
  field. lra.
Qed.

Lemma centered_of_standardized (N D : nat) (X : matrix) :
  standardized N D X -> (0 < N)%nat -> broadcast Rminus X (mean_vec X) = X.
Proof.
  intros HS HN. rewrite (mean_vec_standardized N D) by assumption.
  apply (broadcast_minus_zero N D), HS.
Qed.

(** X6.  On standardized data the diagonal of the covariance matrix is
    [N / (N - 1)] for every column of variance 1, and 0 for every
    column of variance 0: the finite-sample factor seen on the diagonal
    that the notebook prints. *)
Theorem cov_mat_diagonal (N D : nat) (X_std : matrix) (j : nat) :
  standardized N D X_std -> (2 <= N)%nat -> (j < D)%nat ->
  (np_var (col j X_std) = 1 ->
   nth j (nth j (cov_mat X_std) []) nonfinite = fin (INR N / (INR N - 1)))
  /\ (np_var (col j X_std) = 0 ->
      nth j (nth j (cov_mat X_std) []) nonfinite = fin 0).
Proof.
  intros HS HN Hj. pose proof HS as [HX Hm].
  assert (Hlen : length (col j X_std) = N) by (rewrite col_length; apply HX).
  assert (Hne : col j X_std <> [])
    by (intros E; rewrite E in Hlen; simpl in Hlen; lia).
  assert (Hd : nth j (nth j (cov_mat X_std) []) nonfinite
               = fin (INR N * np_var (col j X_std) / (INR N - 1))).
  { rewrite (nth_cov_mat N D) by assumption.
    rewrite (centered_of_standardized N D) by (auto; lia).
    rewrite dotprod_self_variance, Hlen; auto. now apply Hm. }
  assert (H2 : 2 <= INR N) by (apply (le_INR 2); lia).
  split; intros Hv; rewrite Hd, Hv; f_equal; field; lra.
Qed.

Lemma cov_mat_diagonal_witness :
  (np_var (col 0 [[1; 0]; [-1; 0]]) = 1 ->
   nth 0 (nth 0 (cov_mat [[1; 0]; [-1; 0]]) []) nonfinite
   = fin (INR 2 / (INR 2 - 1)))
  /\ (np_var (col 0 [[1; 0]; [-1; 0]]) = 0 ->
      nth 0 (nth 0 (cov_mat [[1; 0]; [-1; 0]]) []) nonfinite = fin 0).
Proof.
  apply (cov_mat_diagonal 2 2 [[1; 0]; [-1; 0]] 0).
  - split; [shape_by_computation|].
    intros [|[|j]] Hj; try lia; unfold np_var, np_mean; cbn; split;
      try (left; field); try (right; field); field.
  - lia.
  - lia.
Defined.

(** X7.  The column means that cell 13 subtracts are all 0 on
    standardized data, so [X_std - mean_vec] is [X_std] itself; on any
    matrix, every column of [X - mean_vec] has mean 0. *)
Theorem recentering (N D : nat) (X : matrix) (j : nat) :
  has_shape N D X -> (0 < N)%nat -> (j < D)%nat ->
  np_mean (col j (broadcast Rminus X (mean_vec X))) = 0
  /\ (standardized N D X -> broadcast Rminus X (mean_vec X) = X).
Proof.
  intros HX HN Hj. split.
  - pose proof (has_shape_ncols N D X HX HN) as Hc.
    assert (Hlen : length (col j X) = N) by (rewrite col_length; apply HX).
    assert (Hne : col j X <> [])
      by (intros E; rewrite E in Hlen; simpl in Hlen; lia).
    rewrite (col_broadcast Rminus N D); auto.
    + unfold mean_vec. rewrite nth_mean_axis0 by lia.
      replace (map (fun x => x - np_mean (col j X)) (col j X))
        with (map (fun x => 1 * x + - np_mean (col j X)) (col j X))
        by (apply map_ext; intros; ring).
      rewrite np_mean_affine by assumption. ring.
    + unfold mean_vec. now rewrite mean_axis0_length.
  - intros HS. now apply (centered_of_standardized N D).
Qed.

Lemma recentering_witness :
  np_mean (col 0 (broadcast Rminus [[1; -1]; [-1; 1]]
                            (mean_vec [[1; -1]; [-1; 1]]))) = 0
  /\ (standardized 2 2 [[1; -1]; [-1; 1]] ->
      broadcast Rminus [[1; -1]; [-1; 1]] (mean_vec [[1; -1]; [-1; 1]])
      = [[1; -1]; [-1; 1]]).
Proof.
  apply (recentering 2 2 [[1; -1]; [-1; 1]] 0).
  - shape_by_computation.
  - lia.
  - lia.
Defined.

(** ** The covariance matrix is positive semidefinite *)

Lemma bigsum_mult (n m : nat) (f g : nat -> R) :
  bigsum n f * bigsum m g = bigsum n (fun i => bigsum m (fun j => f i * g j)).
Proof.
  rewrite Rmult_comm, <- bigsum_scal. apply bigsum_ext. intros i _.
  rewrite (Rmult_comm _ (f i)). symmetry. apply bigsum_scal.
Qed.

(** [v^T (X^T X) v] is the sum over the rows of [X] of [(row . v)^2]. *)
Lemma quadratic_gram (N D : nat) (x : nat -> nat -> R) (v : nat -> R) :
  bigsum D (fun j =>
    v j * bigsum D (fun k => bigsum N (fun i => x i j * x i k) * v k))
  = bigsum N (fun i =>
      bigsum D (fun j => x i j * v j) * bigsum D (fun k => x i k * v k)).
Proof.
  rewrite (bigsum_ext N _
             (fun i => bigsum D (fun j => bigsum D (fun k =>
                 v j * (x i j * x i k * v k)))))
    by (intros i _; rewrite bigsum_mult; apply bigsum_ext; intros j _;
        apply bigsum_ext; intros k _; ring).
  rewrite bigsum_swap. apply bigsum_ext. intros j _.
  rewrite <- bigsum_scal, bigsum_swap. apply bigsum_ext. intros k _.
  rewrite (bigsum_ext N (fun i => v j * (x i j * x i k * v k))
                      (fun i => v j * v k * (x i j * x i k)))
    by (intros i _; ring).
  rewrite bigsum_scal. ring.
Qed.

Lemma cov_mat_finite (N D : nat) (X : matrix) :
  has_shape N D X -> (2 <= N)%nat ->
  cov_mat X
  = map (map fin)
        (map (map (fun x => x / (INR N - 1)))
             (dot (transpose (broadcast Rminus X (mean_vec X)))
                  (broadcast Rminus X (mean_vec X)))).
Proof.
  intros [HXN _] HN. unfold cov_mat. rewrite map_map.
  apply map_ext. intros r. rewrite map_map. apply map_ext. intros x.
  unfold true_divide, nrows. rewrite HXN.
  destruct (Z.eqb_spec (Z.of_nat N - 1) 0) as [E|E]; [lia|].
  now rewrite IZR_pred_nat.
Qed.

Lemma map2_fin_injective (C C' : matrix) :
  map (map fin) C = map (map fin) C' -> C = C'.
Proof.
  revert C'. induction C as [|r C IH]; intros [|r' C'] H; try discriminate;
    [reflexivity|].
  simpl in H. injection H as Hr HC. f_equal; [|now apply IH].
  clear -Hr. revert r' Hr.
  induction r as [|x r IHr]; intros [|x' r'] Hr; try discriminate;
    [reflexivity|].
  simpl in Hr. injection Hr as Hx Hr'. f_equal; [exact Hx|now apply IHr].
Qed.

Lemma quadratic_form_gram (N D : nat) (C : matrix) (a : R) (v : vector) :
  has_shape N D C -> (0 < N)%nat -> length v = D ->
  quadratic_form (map (map (fun x => x * a)) (dot (transpose C) C)) v
  = a * bigsum N (fun i =>
          bigsum D (fun j => entry C i j * nth j v 0)
          * bigsum D (fun k => entry C i k * nth k v 0)).
Proof.
  intros HC HN Hv.
  pose proof (has_shape_ncols N D C HC HN) as Hc.
  pose proof (transpose_shape N D C HC HN) as HT.
  pose proof (gram_shape C) as HG. rewrite Hc in HG.
  pose proof (map2_shape (fun x => x * a) D D _ HG) as HGa.
  unfold quadratic_form.
  rewrite (dotprod_bigsum D) by (rewrite ?length_map; destruct HG; auto).
  rewrite <- (quadratic_gram N D (entry C) (fun j => nth j v 0)).
  rewrite <- bigsum_scal. apply bigsum_ext. intros j Hj.
  rewrite (nth_map_in (fun r : vector => dotprod r v)
                      (map (map (fun x => x * a)) (dot (transpose C) C))
                      [] 0 j)
    by (rewrite length_map; destruct HG as [E _]; rewrite E; exact Hj).
  rewrite (dotprod_bigsum D) by (auto; now apply (has_shape_row D D)).
  replace (a * (nth j v 0
                * bigsum D (fun k =>
                    bigsum N (fun i => entry C i j * entry C i k) * nth k v 0)))
    with (nth j v 0
          * bigsum D (fun k =>
              a * (bigsum N (fun i => entry C i j * entry C i k) * nth k v 0)))
    by (rewrite bigsum_scal; ring).
  f_equal. apply bigsum_ext. intros k Hk.
  rewrite (nth_map2 _ 0 0 D D) by assumption.
  fold (entry (dot (transpose C) C) j k).
  rewrite (entry_dot D N D) by (auto; lia).
  rewrite (bigsum_ext N _ (fun i => entry C i j * entry C i k))
    by (intros i _; now rewrite entry_transpose by lia).
  ring.
Qed.

Lemma cov_mat_quadratic_nonneg (N D : nat) (X : matrix) (C : matrix)
      (v : vector) :
  has_shape N D X -> (2 <= N)%nat -> cov_mat X = map (map fin) C ->
  length v = D -> 0 <= quadratic_form C v.
Proof.
  intros HX HN HC Hv.
  rewrite (cov_mat_finite N D X HX HN) in HC.
  apply map2_fin_injective in HC. subst C.
  pose proof (centered_shape N D X HX ltac:(lia)) as HS.
  unfold Rdiv.
  rewrite (quadratic_form_gram N D) by (auto; lia).
  assert (H2 : 2 <= INR N) by (apply (le_INR 2); lia).
  apply Rmult_le_pos.
  - left. apply Rinv_0_lt_compat. lra.
  - apply bigsum_nonneg. intros i _. apply Rle_0_sqr.
Qed.

(** X8.  For data with [N >= 2] rows the covariance matrix has only
    finite entries and is positive semidefinite: [v . (cov . v) >= 0]
    for every vector [v] of length [D]. *)
Theorem cov_mat_positive_semidefinite (N D : nat) (X : matrix) :
  has_shape N D X -> (2 <= N)%nat ->
  exists C, cov_mat X = map (map fin) C
            /\ has_shape D D C
            /\ forall v, length v = D -> 0 <= quadratic_form C v.
Proof.
  intros HX HN. eexists. split; [apply (cov_mat_finite N D); auto|].
  split.
  - apply map2_shape.
    pose proof (centered_shape N D X HX ltac:(lia)) as HS.
    rewrite <- (has_shape_ncols N D _ HS ltac:(lia)) at 1 2.
    apply gram_shape.
  - intros v Hv. apply (cov_mat_quadratic_nonneg N D X); auto.
    now apply (cov_mat_finite N D).
Qed.

Lemma cov_mat_positive_semidefinite_witness :
  exists C, cov_mat [[1; -1]; [-1; 1]] = map (map fin) C
            /\ has_shape 2 2 C
            /\ forall v, length v = 2%nat -> 0 <= quadratic_form C v.
Proof.
  apply (cov_mat_positive_semidefinite 2 2).
  - shape_by_computation.
  - lia.
Defined.

(** ** Eigenpairs of the covariance matrix *)

Lemma dotprod_scal_r (lambda : R) (v w : vector) :
  dotprod v (map (fun x => lambda * x) w) = lambda * dotprod v w.
Proof.
  unfold dotprod. revert w.
  induction v as [|x v IH]; intros [|y w]; simpl; try ring.
  rewrite IH. ring.
Qed.

Lemma eigenvalue_nonneg (N D : nat) (X C : matrix) (lambda : R) (v : vector) :
  has_shape N D X -> (2 <= N)%nat -> cov_mat X = map (map fin) C ->
  length v = D -> eigenpair C lambda v -> 0 < dotprod v v ->
  0 <= lambda.
Proof.
  intros HX HN HC Hv He Hpos.
  pose proof (cov_mat_quadratic_nonneg N D X C v HX HN HC Hv) as Hq.
  unfold quadratic_form in Hq. unfold eigenpair in He.
  rewrite He, dotprod_scal_r in Hq.
  destruct (Rle_or_lt 0 lambda) as [H|H]; [exact H|].
  exfalso. pose proof (Rmult_lt_0_compat _ _ (Ropp_0_gt_lt_contravar _ H) Hpos).
  lra.
Qed.

(** X9.  Every eigenvalue of the covariance matrix of data with
    [N >= 2] rows is [>= 0]: if [cov . v = lambda * v] for a vector
    [v] that is not zero, then [lambda >= 0], and [np.abs] leaves it as
    it is. *)
Theorem covariance_eigenvalue_nonneg (N D : nat) (X C : matrix) (lambda : R)
        (v : vector) :
  has_shape N D X -> (2 <= N)%nat -> cov_mat X = map (map fin) C ->
  length v = D -> eigenpair C lambda v -> 0 < dotprod v v ->
  0 <= lambda /\ Rabs lambda = lambda.
Proof.
  intros HX HN HC Hv He Hpos.
  pose proof (eigenvalue_nonneg N D X C lambda v HX HN HC Hv He Hpos) as H.
  split; [exact H|now apply Rabs_pos_eq].
Qed.

Lemma cov_mat_two_columns_example :
  cov_mat [[0; -1]; [0; 1]] = map (map fin) [[0; 0]; [0; 2]].
Proof.
  assert (E0 : np_mean [0; 0] = 0) by (unfold np_mean; cbn; field).
  assert (E1 : np_mean [-1; 1] = 0) by (unfold np_mean; cbn; field).
  cbn. rewrite E0, E1. repeat (f_equal; try field).
Qed.

Lemma covariance_eigenvalue_nonneg_witness : 0 <= 2 /\ Rabs 2 = 2.
Proof.
  apply (covariance_eigenvalue_nonneg 2 2 [[0; -1]; [0; 1]] [[0; 0]; [0; 2]]
                                      2 [0; 1]).
  - shape_by_computation.
  - lia.
  - exact cov_mat_two_columns_example.
  - reflexivity.
  - unfold eigenpair, dotprod. cbn. repeat (f_equal; try ring).
  - unfold dotprod. cbn. lra.
Defined.

(** X10.  When [eig_vals] and the columns of [eig_vecs] are eigenpairs
    of the covariance matrix, with eigenvectors that are not zero,
    [eig_pairs] lists the same eigenvalues in the same order (the
    absolute value changes none of them) and each of its pairs is still
    an eigenpair. *)
Theorem eig_pairs_keeps_eigenpairs (N D : nat) (X C : matrix)
        (eig_vals : vector) (eig_vecs : matrix) :
  has_shape N D X -> (2 <= N)%nat -> cov_mat X = map (map fin) C ->
  length eig_vecs = D ->
  (forall i, (i < length eig_vals)%nat ->
     eigenpair C (nth i eig_vals 0) (col i eig_vecs)
     /\ 0 < dotprod (col i eig_vecs) (col i eig_vecs)) ->
  map fst (eig_pairs eig_vals eig_vecs) = eig_vals
  /\ Forall (fun p => eigenpair C (fst p) (snd p))
            (eig_pairs eig_vals eig_vecs).
Proof.
  intros HX HN HC Hvecs Hpairs.
  assert (Habs : forall i, (i < length eig_vals)%nat ->
                   Rabs (nth i eig_vals 0) = nth i eig_vals 0).
  { intros i Hi. destruct (Hpairs i Hi) as [He Hpos].
    apply Rabs_pos_eq.
    apply (eigenvalue_nonneg N D X C _ (col i eig_vecs)); auto.
    now rewrite col_length. }
  split.
  - rewrite eig_pairs_order. apply (nth_ext _ _ 0 0).
    + apply length_map.
    + intros i Hi. rewrite length_map in Hi.
      rewrite (nth_map_in Rabs eig_vals 0 0 i) by exact Hi.
      now apply Habs.
  - unfold eig_pairs. rewrite Forall_map, Forall_forall. intros i Hi.
    apply in_seq in Hi. cbn [fst snd].
    rewrite Habs by lia. apply Hpairs. lia.
Qed.

Lemma eig_pairs_keeps_eigenpairs_witness :
  map fst (eig_pairs [0; 2] [[1; 0]; [0; 1]]) = [0; 2]
  /\ Forall (fun p => eigenpair [[0; 0]; [0; 2]] (fst p) (snd p))
            (eig_pairs [0; 2] [[1; 0]; [0; 1]]).
Proof.
  apply (eig_pairs_keeps_eigenpairs 2 2 [[0; -1]; [0; 1]]).
  - shape_by_computation.
  - lia.
  - exact cov_mat_two_columns_example.
  - reflexivity.
  - intros [|[|i]] Hi; cbn in Hi; try lia;
      (split; [unfold eigenpair, dotprod; cbn; repeat (f_equal; try ring)
              |unfold dotprod; cbn; lra]).
Defined.

(** ** [np.cov] of a single observation *)

Lemma constant_rows_repeat {A B} (b : B) (N D : nat) (X : list (list A)) :
  has_shape N D X -> map (map (fun _ => b)) X = repeat (repeat b D) N.
Proof.
  intros [HN HD]. subst N. induction HD as [|r X Hr _ IH]; [reflexivity|].
  simpl. f_equal; [|exact IH].
  subst D. clear. induction r as [|x r IH]; simpl; [|rewrite IH]; reflexivity.
Qed.

(** X11.  With a single row of data ([N = 1]) [np.cov(X_std.T)] raises
    nothing either: its normalisation [N - 1] is 0 and every entry of
    the [D x D] result is non-finite (a 0-d non-finite value when
    [D = 1]). *)
Theorem np_cov_single_observation (D : nat) (X : matrix) :
  has_shape 1 D X ->
  ((2 <= D)%nat ->
   np_cov (transpose X) = array2d (repeat (repeat nonfinite D) D))
  /\ (D = 1%nat -> np_cov (transpose X) = array0d nonfinite).
Proof.
  intros HX.
  assert (Hmain : (0 < D)%nat ->
            np_cov (transpose X) = squeeze (repeat (repeat nonfinite D) D)).
  { intros HD.
    pose proof (transpose_shape 1 D X HX ltac:(lia)) as HT.
    pose proof (centered_shape 1 D X HX ltac:(lia)) as HC.
    rewrite np_cov_nonempty.
    2:{ intros E. destruct HT as [HT _]. rewrite E in HT. simpl in HT. lia. }
    rewrite (center_rows_transpose 1 D) by (auto; lia).
    rewrite (transpose_transpose 1 D) by (auto; lia).
    rewrite (has_shape_ncols D 1 _ HT HD). f_equal.
    cbn [Z.of_nat Z.sub Z.max Z.compare Z.add Z.opp Z.pos_sub true_divide
         Z.eqb np_multiply].
    apply (constant_rows_repeat nonfinite D D).
    pose proof (gram_shape (broadcast Rminus X (mean_vec X))) as HG.
    now rewrite (has_shape_ncols 1 D _ HC ltac:(lia)) in HG. }
  split.
  - intros HD. rewrite Hmain by lia. apply squeeze_two_rows.
    rewrite repeat_length. lia.
  - intros ->. rewrite Hmain by lia. reflexivity.
Qed.

Lemma np_cov_single_observation_witness :
  ((2 <= 2)%nat ->
   np_cov (transpose [[0; 0]]) = array2d (repeat (repeat nonfinite 2) 2))
  /\ (2%nat = 1%nat -> np_cov (transpose [[0; 0]]) = array0d nonfinite).
Proof.
  apply (np_cov_single_observation 2 [[0; 0]]). shape_by_computation.
Defined.

(** ** The cumulative sum *)

Lemma cumsum_from_nth (acc : R) (l : vector) (k : nat) :
  (k < length l)%nat ->
  nth k (cumsum_from acc l) 0 = acc + Rsum (firstn (S k) l).
Proof.
  revert acc k. induction l as [|x l IH]; intros acc k Hk; [simpl in Hk; lia|].
  destruct k as [|k].
  - simpl. destruct l; simpl; ring.
  - change (nth (S k) (cumsum_from acc (x :: l)) 0)
      with (nth k (cumsum_from (acc + x) l) 0).
    rewrite IH by (simpl in Hk; lia).
    change (firstn (S (S k)) (x :: l)) with (x :: firstn (S k) l).
    simpl. ring.
Qed.

(** X13.  Point [k] of [np.cumsum] is the sum of the entries up to and
    including index [k], and the result is as long as the input: point
    [k] of the plotted curve is the share of variance of the first
    [k + 1] components. *)
Theorem np_cumsum_prefix_sums (l : vector) (k : nat) :
  (k < length l)%nat ->
  length (np_cumsum l) = length l
  /\ nth k (np_cumsum l) 0 = Rsum (firstn (S k) l).
Proof.
  intros Hk. unfold np_cumsum. split; [apply cumsum_from_length|].
  rewrite cumsum_from_nth by assumption. ring.
Qed.

Lemma np_cumsum_prefix_sums_witness :
  length (np_cumsum [3; 1; 2]) = length [3; 1; 2]
  /\ nth 1 (np_cumsum [3; 1; 2]) 0 = Rsum (firstn 2 [3; 1; 2]).
Proof.
  apply (np_cumsum_prefix_sums [3; 1; 2] 1). simpl. lia.
Defined.

(** * Loading the ratings *)

(** ** Renaming movie ids to titles *)

Lemma filter_none {A} (f : A -> bool) (l : list A) :
  (forall x, In x l -> f x = false) -> filter f l = [].
Proof.
  induction l as [|x l IH]; intros H; [reflexivity|].
  simpl. rewrite (H x (or_introl eq_refl)). apply IH.
  intros y Hy. apply H. now right.
Qed.

Lemma replace_name_first (movies : list movie) (x : nat) (t : String.string) :
  replace_name movies x = value t <->
  exists before m after,
    movies = before ++ m :: after
    /\ movies_movieId m = x /\ title m = t
    /\ forall m', In m' before -> movies_movieId m' <> x.
Proof.
  unfold replace_name. split.
  - induction movies as [|m movies IH]; simpl; [discriminate|].
    destruct (Nat.eqb_spec (movies_movieId m) x) as [E|E].
    + simpl. intros H. injection H as H.
      exists [], m, movies. repeat split; auto; intros m' [].
    + intros H. destruct (IH H) as (before & m0 & after & -> & Hx & Ht & Hb).
      exists (m :: before), m0, after. repeat split; auto.
      intros m' [<-|Hin]; auto.
  - intros (before & m & after & -> & Hx & Ht & Hb).
    rewrite filter_app, filter_none.
    + simpl. rewrite (proj2 (Nat.eqb_eq _ _) Hx). simpl. now rewrite Ht.
    + intros m' Hin. apply Nat.eqb_neq. now apply Hb.
Qed.

Lemma replace_name_unknown (movies : list movie) (x : nat) :
  replace_name movies x = exception IndexError <->
  ~ In x (map movies_movieId movies).
Proof.
  unfold replace_name. split.
  - intros H Hin. apply in_map_iff in Hin. destruct Hin as (m & Hx & Hm).
    assert (Hf : In m (filter (fun m => Nat.eqb (movies_movieId m) x) movies))
      by (apply filter_In; split; [exact Hm|now apply Nat.eqb_eq]).
    destruct (filter _ movies); [contradiction|discriminate].
  - intros Hnot. rewrite filter_none; [reflexivity|].
    intros m Hm. apply Nat.eqb_neq. intros E. apply Hnot.
    apply in_map_iff. now exists m.
Qed.

(** X15.  [replace_name] returns the title of the first row of
    [movies] whose id is [x]; it raises [IndexError] exactly when no
    row has that id, and it raises nothing else. *)
Theorem replace_name_spec (movies : list movie) (x : nat) :
  (forall t, replace_name movies x = value t <->
     exists before m after,
       movies = before ++ m :: after
       /\ movies_movieId m = x /\ title m = t
       /\ forall m', In m' before -> movies_movieId m' <> x)
  /\ (replace_name movies x = exception IndexError <->
      ~ In x (map movies_movieId movies))
  /\ (forall e, replace_name movies x = exception e -> e = IndexError).
Proof.
  split; [intros t; apply replace_name_first|].
  split; [apply replace_name_unknown|].
  intros e. unfold replace_name.
  destruct (map title _); [|discriminate]. now intros [= <-].
Qed.

Lemma series_map_value {A B} (f : A -> result B) (s : list A) (ys : list B) :
  series_map f s = value ys <-> Forall2 (fun x y => f x = value y) s ys.
Proof.
  revert ys. induction s as [|x s IH]; intros ys; simpl.
  - split; [intros [= <-]; constructor|intros H; now inversion H].
  - destruct (f x) as [y|e] eqn:Ex.
    + destruct (series_map f s) as [ys'|e] eqn:Es.
      * split.
        -- intros [= <-]. constructor; [exact Ex|now apply IH].
        -- intros H. inversion H as [|? z ? zs Hz Hzs]; subst.
           rewrite Ex in Hz. injection Hz as <-.
           apply IH in Hzs. now injection Hzs as <-.
      * split; [discriminate|].
        intros H. inversion H as [|? z ? zs Hz Hzs]; subst.
        apply IH in Hzs. discriminate.
    + split; [discriminate|].
      intros H. inversion H as [|? z ? zs Hz Hzs]; subst.
      rewrite Ex in Hz. discriminate.
Qed.

Lemma series_map_exception {A B} (f : A -> result B) (s : list A)
      (e : py_exception) :
  series_map f s = exception e -> exists x, In x s /\ f x = exception e.
Proof.
  induction s as [|x s IH]; simpl; [discriminate|].
  destruct (f x) as [y|e'] eqn:Ex.
  - destruct (series_map f s) as [ys|e'']; [discriminate|].
    intros [= <-]. destruct (IH eq_refl) as (z & Hz & Hf).
    exists z. split; [now right|exact Hf].
  - intros [= <-]. exists x. split; [now left|exact Ex].
Qed.

Lemma series_map_total {A B} (f : A -> result B) (s : list A) :
  (forall x, In x s -> exists y, f x = value y) ->
  exists ys, series_map f s = value ys.
Proof.
  induction s as [|x s IH]; intros H; simpl; [now exists []|].
  destruct (H x (or_introl eq_refl)) as [y ->].
  destruct IH as [ys ->]; [intros z Hz; apply H; now right|].
  now exists (y :: ys).
Qed.

Lemma replace_name_known (movies : list movie) (x : nat) :
  In x (map movies_movieId movies) -> exists t, replace_name movies x = value t.
Proof.
  intros Hin. destruct (replace_name movies x) as [t|e] eqn:E; [now exists t|].
  exfalso. assert (e = IndexError).
  { unfold replace_name in E. destruct (map title _); [|discriminate].
    now injection E as <-. }
  subst e. now apply replace_name_unknown in E.
Qed.

Lemma rename_movies_value (movies : list movie)
      (ratings : list (rating_row nat))
      (named : list (rating_row String.string)) :
  rename_movies movies ratings = value named ->
  Forall2 (renamed movies) ratings named.
Proof.
  unfold rename_movies.
  destruct (series_map _ _) as [titles|e] eqn:E; [|discriminate].
  intros [= <-]. apply series_map_value in E.
  remember (map movieId ratings) as ids eqn:Hids.
  revert ratings Hids.
  induction E as [|x t ids titles Hx _ IH]; intros ratings Hids.
  - destruct ratings; [constructor|discriminate].
  - destruct ratings as [|r ratings]; [discriminate|].
    simpl in Hids. injection Hids as -> ->.
    simpl. constructor; [|now apply IH].
    unfold renamed. simpl. auto.
Qed.

Lemma Forall2_in_left {A B} (P : A -> B -> Prop) (l : list A) (l' : list B)
      (x : A) :
  Forall2 P l l' -> In x l -> exists y, In y l' /\ P x y.
Proof.
  induction 1 as [|a b l l' Hab _ IH]; intros Hin; [contradiction|].
  destruct Hin as [<-|Hin].
  - exists b. split; [now left|exact Hab].
  - destruct (IH Hin) as (y & Hy & HP). exists y. split; [now right|exact HP].
Qed.

Lemma rename_movies_known (movies : list movie)
      (ratings : list (rating_row nat)) :
  Forall (fun r => In (movieId r) (map movies_movieId movies)) ratings ->
  exists named,
    rename_movies movies ratings = value named
    /\ Forall2 (renamed movies) ratings named.
Proof.
  intros Hall.
  destruct (series_map_total (replace_name movies) (map movieId ratings))
    as [titles Ht].
  { intros x Hx. apply in_map_iff in Hx. destruct Hx as (r & <- & Hr).
    apply replace_name_known. rewrite Forall_forall in Hall. now apply Hall. }
  assert (E : exists named, rename_movies movies ratings = value named).
  { unfold rename_movies. rewrite Ht. eexists. reflexivity. }
  destruct E as [named E]. exists named. split; [exact E|].
  now apply rename_movies_value.
Qed.

Lemma rename_movies_unknown (movies : list movie)
      (ratings : list (rating_row nat)) :
  Exists (fun r => ~ In (movieId r) (map movies_movieId movies)) ratings ->
  rename_movies movies ratings = exception IndexError.
Proof.
  intros Hex. apply Exists_exists in Hex. destruct Hex as (r & Hr & Hnot).
  unfold rename_movies.
  destruct (series_map _ _) as [titles|e] eqn:E.
  - exfalso. apply series_map_value in E.
    assert (Hin : In (movieId r) (map movieId ratings)) by now apply in_map.
    destruct (Forall2_in_left _ _ _ _ E Hin) as (t & _ & Ht).
    apply replace_name_unknown in Hnot. congruence.
  - apply series_map_exception in E. destruct E as (x & _ & Hx).
    f_equal. unfold replace_name in Hx.
    destruct (map title _); [|discriminate]. now injection Hx as <-.
Qed.

(** X16.  The renaming succeeds when every rated movie id is in
    [movies]: it keeps the rows in order, with their users and ratings,
    and puts in place of each id the title [replace_name] gives.  When
    some rated id is not in [movies] it raises [IndexError]. *)
Theorem rename_movies_spec (movies : list movie)
        (ratings : list (rating_row nat)) :
  (Forall (fun r => In (movieId r) (map movies_movieId movies)) ratings ->
   exists named,
     rename_movies movies ratings = value named
     /\ Forall2 (renamed movies) ratings named)
  /\ (Exists (fun r => ~ In (movieId r) (map movies_movieId movies)) ratings ->
      rename_movies movies ratings = exception IndexError).
Proof.
  split; [apply rename_movies_known|apply rename_movies_unknown].
Qed.

Lemma rename_movies_spec_witness :
  exists named,
    rename_movies example_movies (drop_timestamp example_ratings) = value named
    /\ Forall2 (renamed example_movies) (drop_timestamp example_ratings) named.
Proof.
  apply (proj1 (rename_movies_spec example_movies
                                   (drop_timestamp example_ratings))).
  apply Forall_forall. intros r [<-|[<-|[<-|[]]]]; simpl; intuition.
Defined.

(** ** Sorted distinct labels *)

Section Labels.

Context {K : Type} `{Key K}.

Lemma compare_keys_eq (x y : K) : compare_keys x y = Eq -> x = y.
Proof.
  destruct (compare_keys_spec x y) as [Heq|Hlt|Hgt]; intros E;
    [exact Heq|discriminate|discriminate].
Qed.

Lemma compare_keys_refl (x : K) : compare_keys x x = Eq.
Proof.
  destruct (compare_keys_spec x x) as [Heq|Hlt|Hgt]; [reflexivity| |];
    exfalso; eapply compare_keys_irrefl; eassumption.
Qed.

Lemma compare_keys_gt (x y : K) : compare_keys x y = Gt -> compare_keys y x = Lt.
Proof.
  destruct (compare_keys_spec x y) as [Heq|Hlt|Hgt]; intros E;
    [discriminate|discriminate|exact Hgt].
Qed.

Lemma key_eqb_eq (x y : K) : key_eqb x y = true <-> x = y.
Proof.
  unfold key_eqb. split.
  - destruct (compare_keys x y) eqn:E; try discriminate.
    intros _. now apply compare_keys_eq.
  - intros ->. now rewrite compare_keys_refl.
Qed.

Lemma In_insert_unique (z x : K) (l : list K) :
  In z (insert_unique x l) <-> z = x \/ In z l.
Proof.
  induction l as [|y t IH]; simpl.
  - intuition.
  - destruct (compare_keys x y) eqn:E; simpl.
    + apply compare_keys_eq in E. subst y. intuition.
    + intuition.
    + rewrite IH. intuition.
Qed.

Lemma In_sorted_unique (z : K) (l : list K) :
  In z (sorted_unique l) <-> In z l.
Proof.
  unfold sorted_unique. induction l as [|x l IH]; simpl; [reflexivity|].
  rewrite In_insert_unique, IH. intuition.
Qed.

Lemma ascending_insert (x : K) (l : list K) :
  ascending l -> ascending (insert_unique x l).
Proof.
  induction l as [|y t IH]; intros Hl; [simpl; auto|].
  destruct Hl as [Hy Ht]. simpl.
  destruct (compare_keys x y) eqn:E.
  - simpl. auto.
  - simpl. auto.
  - apply compare_keys_gt in E. specialize (IH Ht).
    change (ascending (y :: insert_unique x t)).
    destruct t as [|z t]; [simpl; auto|].
    simpl in IH |- *. destruct (compare_keys x z); simpl; auto.
Qed.

Lemma ascending_sorted_unique (l : list K) : ascending (sorted_unique l).
Proof.
  unfold sorted_unique. induction l as [|x l IH]; simpl; [exact I|].
  now apply ascending_insert.
Qed.

Lemma ascending_head_lt (x : K) (t : list K) :
  ascending (x :: t) -> forall z, In z t -> compare_keys x z = Lt.
Proof.
  revert x. induction t as [|y t IH]; intros x [Hxy Ht] z Hz; [contradiction|].
  destruct Hz as [<-|Hz]; [exact Hxy|].
  apply (compare_keys_trans x y z); [exact Hxy|now apply IH].
Qed.

Lemma ascending_tail (x : K) (t : list K) : ascending (x :: t) -> ascending t.
Proof. now intros [_ Ht]. Qed.

Lemma ascending_NoDup (l : list K) : ascending l -> NoDup l.
Proof.
  induction l as [|x t IH]; intros Hl; constructor.
  - intros Hin. apply (compare_keys_irrefl x).
    now apply (ascending_head_lt x t).
  - apply IH. now apply (ascending_tail x).
Qed.

(** Two ascending lists with the same members are the same list. *)
Lemma ascending_ext (l l' : list K) :
  ascending l -> ascending l' -> (forall z, In z l <-> In z l') -> l = l'.
Proof.
  revert l'. induction l as [|x t IH]; intros [|x' t'] Hl Hl' Hin.
  - reflexivity.
  - exfalso. apply (proj2 (Hin x')). now left.
  - exfalso. apply (proj1 (Hin x)). now left.
  - assert (Hx : x = x').
    { destruct (proj1 (Hin x) (or_introl eq_refl)) as [E|Hx]; [now symmetry|].
      destruct (proj2 (Hin x') (or_introl eq_refl)) as [E|Hx']; [exact E|].
      exfalso. apply (compare_keys_irrefl x).
      apply (compare_keys_trans x x' x).
      - now apply (ascending_head_lt x t).
      - now apply (ascending_head_lt x' t'). }
    subst x'. f_equal.
    apply IH; [now apply (ascending_tail x)|now apply (ascending_tail x)|].
    intros z. split; intros Hz.
    + destruct (proj1 (Hin z) (or_intror Hz)) as [E|Hz']; [|exact Hz'].
      subst z. exfalso. apply (compare_keys_irrefl x).
      now apply (ascending_head_lt x t).
    + destruct (proj2 (Hin z) (or_intror Hz)) as [E|Hz']; [|exact Hz'].
      subst z. exfalso. apply (compare_keys_irrefl x).
      now apply (ascending_head_lt x t').
Qed.

Lemma sorted_unique_ext (l l' : list K) :
  (forall z, In z l <-> In z l') -> sorted_unique l = sorted_unique l'.
Proof.
  intros Hin. apply ascending_ext; try apply ascending_sorted_unique.
  intros z. now rewrite !In_sorted_unique.
Qed.

End Labels.

(** ** The pivot table *)

Lemma Rsum_bounds (lo hi : R) (g : vector) :
  Forall (fun x => lo <= x <= hi) g ->
  INR (length g) * lo <= Rsum g <= INR (length g) * hi.
Proof.
  induction 1 as [|x g Hx _ IH].
  - simpl. lra.
  - change (length (x :: g)) with (S (length g)). rewrite S_INR. simpl. lra.
Qed.

Lemma np_mean_bounds (lo hi : R) (g : vector) :
  g <> [] -> Forall (fun x => lo <= x <= hi) g -> lo <= np_mean g <= hi.
Proof.
  intros Hg Hall. pose proof (INR_length_pos g Hg) as Hn.
  pose proof (Rsum_bounds lo hi g Hall) as [Hlo Hhi].
  unfold np_mean. split.
  - apply (Rmult_le_reg_r (INR (length g))); [exact Hn|].
    unfold Rdiv. rewrite Rmult_assoc, Rinv_l by lra. lra.
  - apply (Rmult_le_reg_r (INR (length g))); [exact Hn|].
    unfold Rdiv. rewrite Rmult_assoc, Rinv_l by lra. lra.
Qed.

Lemma Rsum_permutation (g g' : vector) :
  Permutation.Permutation g g' -> Rsum g = Rsum g'.
Proof.
  induction 1; simpl; lra.
Qed.

Lemma filter_permutation {A} (f : A -> bool) (l l' : list A) :
  Permutation.Permutation l l' ->
  Permutation.Permutation (filter f l) (filter f l').
Proof.
  induction 1 as [|x l l' _ IH|x y l|l l' l'' _ IH1 _ IH2]; simpl.
  - constructor.
  - destruct (f x); [now constructor|exact IH].
  - destruct (f x), (f y); try apply Permutation.Permutation_refl.
    apply Permutation.perm_swap.
  - now apply Permutation.perm_trans with (filter f l').
Qed.

Section Pivot.

Context {K : Type} `{Key K}.
Variable rows : list (rating_row K).

Lemma ratings_of_nil :
  forall u t, ratings_of rows u t = [] <->
    forall r, In r rows -> ~ (userId r = u /\ movieId r = t).
Proof.
  intros u t. unfold ratings_of. split.
  - intros E r Hr [Hu Ht].
    assert (Hf : In r (filter (fun r => Nat.eqb (userId r) u
                                      && key_eqb (movieId r) t) rows)).
    { apply filter_In. split; [exact Hr|].
      apply andb_true_iff. split; [now apply Nat.eqb_eq|now apply key_eqb_eq]. }
    apply (in_map rating) in Hf. rewrite E in Hf. contradiction.
  - intros Hnone. rewrite filter_none; [reflexivity|].
    intros r Hr. apply not_true_is_false. intros E.
    apply andb_true_iff in E. destruct E as [Eu Et].
    apply (Hnone r Hr). split; [now apply Nat.eqb_eq|now apply key_eqb_eq].
Qed.

Lemma group_mean_none :
  forall u t, group_mean rows u t = None <-> ratings_of rows u t = [].
Proof.
  intros u t. unfold group_mean.
  destruct (ratings_of rows u t); split; intros E; try reflexivity;
    discriminate.
Qed.

Lemma pivot_values_shape :
  has_shape (length (index (pivot_table rows)))
            (length (columns (pivot_table rows)))
            (values (pivot_table rows)).
Proof.
  unfold pivot_table. cbn [index columns values]. split.
  - apply length_map.
  - rewrite Forall_map, Forall_forall. intros u _. apply length_map.
Qed.

Lemma pivot_entry (d : K) (i j : nat) :
  (i < length (index (pivot_table rows)))%nat ->
  (j < length (columns (pivot_table rows)))%nat ->
  nth j (nth i (values (pivot_table rows)) []) None
  = group_mean rows (nth i (index (pivot_table rows)) 0%nat)
               (nth j (columns (pivot_table rows)) d).
Proof.
  unfold pivot_table. cbn [index columns values]. intros Hi Hj.
  rewrite (nth_map_in _ _ 0%nat [] i) by exact Hi.
  now rewrite (nth_map_in _ _ d None j) by exact Hj.
Qed.

End Pivot.

Lemma pivot_table_labels_members {K : Type} `{Key K}
      (rows : list (rating_row K)) :
  (forall u, In u (index (pivot_table rows)) <-> In u (map userId rows))
  /\ (forall t, In t (columns (pivot_table rows)) <-> In t (map movieId rows)).
Proof.
  split; [intros u|intros t]; apply In_sorted_unique.
Qed.

(** X17.  The row labels of the pivot table are the users that occur in
    [ratings] and its column labels the titles that occur, each once
    and in ascending order; the array of values has one row per row
    label and one column per column label, as [M.shape] says. *)
Theorem pivot_table_labels {K : Type} `{Key K} (rows : list (rating_row K)) :
  ascending (index (pivot_table rows))
  /\ ascending (columns (pivot_table rows))
  /\ NoDup (index (pivot_table rows))
  /\ NoDup (columns (pivot_table rows))
  /\ (forall u, In u (index (pivot_table rows)) <-> In u (map userId rows))
  /\ (forall t, In t (columns (pivot_table rows)) <-> In t (map movieId rows))
  /\ has_shape (fst (shape (pivot_table rows))) (snd (shape (pivot_table rows)))
               (values (pivot_table rows)).
Proof.
  assert (Hi : ascending (index (pivot_table rows)))
    by apply ascending_sorted_unique.
  assert (Hc : ascending (columns (pivot_table rows)))
    by apply ascending_sorted_unique.
  split; [exact Hi|]. split; [exact Hc|].
  split; [now apply ascending_NoDup|]. split; [now apply ascending_NoDup|].
  split; [intros u; apply In_sorted_unique|].
  split; [intros t; apply In_sorted_unique|].
  apply pivot_values_shape.
Qed.

(** X18.  An entry of the pivot table is missing exactly when the user
    of its row gave no rating to the title of its column; when that
    user gave the title a single rating, the entry is that rating. *)
Theorem pivot_table_entry {K : Type} `{Key K} (rows : list (rating_row K))
        (d : K) (i j : nat) :
  (i < length (index (pivot_table rows)))%nat ->
  (j < length (columns (pivot_table rows)))%nat ->
  (nth j (nth i (values (pivot_table rows)) []) None = None <->
   forall r, In r rows ->
     ~ (userId r = nth i (index (pivot_table rows)) 0%nat
        /\ movieId r = nth j (columns (pivot_table rows)) d))
  /\ (forall v,
        ratings_of rows (nth i (index (pivot_table rows)) 0%nat)
                   (nth j (columns (pivot_table rows)) d) = [v] ->
        nth j (nth i (values (pivot_table rows)) []) None = Some v).
Proof.
  intros Hi Hj. rewrite (pivot_entry rows d i j Hi Hj). split.
  - rewrite group_mean_none. apply ratings_of_nil.
  - intros v Hv. unfold group_mean. rewrite Hv. f_equal.
    unfold np_mean. simpl. field.
Qed.

Lemma example_pivot :
  pivot_table example_named
  = {| index := [3; 7]%nat;
       columns := ["Heat (1995)"%string; "Toy Story (1995)"%string];
       values := [[None; Some 5]; [Some 3; None]] |}.
Proof.
  unfold pivot_table. cbn. unfold group_mean. cbn.
  repeat f_equal; unfold np_mean; cbn; field.
Qed.

Lemma pivot_table_entry_witness :
  (nth 1 (nth 0 (values (pivot_table example_named)) []) None = None <->
   forall r, In r example_named ->
     ~ (userId r = nth 0 (index (pivot_table example_named)) 0%nat
        /\ movieId r = nth 1 (columns (pivot_table example_named)) ""%string))
  /\ (forall v,
        ratings_of example_named
                   (nth 0 (index (pivot_table example_named)) 0%nat)
                   (nth 1 (columns (pivot_table example_named)) ""%string)
        = [v] ->
        nth 1 (nth 0 (values (pivot_table example_named)) []) None = Some v).
Proof.
  apply (pivot_table_entry example_named ""%string 0 1).
  - rewrite example_pivot. simpl. lia.
  - rewrite example_pivot. simpl. lia.
Defined.

(** X19.  Every entry of the pivot table that is not missing lies
    within the bounds of the ratings: with ratings between [lo] and
    [hi], so is the mean kept for a user and a title. *)
Theorem pivot_table_entry_bounds {K : Type} `{Key K}
        (rows : list (rating_row K)) (lo hi : R) (i j : nat) (v : R) :
  (forall r, In r rows -> lo <= rating r <= hi) ->
  nth j (nth i (values (pivot_table rows)) []) None = Some v ->
  lo <= v <= hi.
Proof.
  intros Hb Hv.
  assert (Hi : (i < length (index (pivot_table rows)))%nat).
  { destruct (Nat.lt_ge_cases i (length (index (pivot_table rows))))
      as [Hlt|Hge]; [exact Hlt|].
    rewrite (nth_overflow (values (pivot_table rows))) in Hv
      by (destruct (pivot_values_shape rows) as [E _]; rewrite E; exact Hge).
    destruct j; discriminate. }
  assert (Hj : (j < length (columns (pivot_table rows)))%nat).
  { destruct (Nat.lt_ge_cases j (length (columns (pivot_table rows))))
      as [Hlt|Hge]; [exact Hlt|].
    rewrite nth_overflow in Hv; [discriminate|].
    rewrite (has_shape_row _ _ _ i (pivot_values_shape rows) Hi). exact Hge. }
  destruct (columns (pivot_table rows)) as [|d cs] eqn:Ec;
    [simpl in Hj; lia|].
  rewrite <- Ec in Hj.
  rewrite (pivot_entry rows d i j Hi Hj) in Hv.
  unfold group_mean in Hv.
  destruct (ratings_of rows _ _) as [|x g] eqn:Eg; [discriminate|].
  injection Hv as <-. apply np_mean_bounds; [discriminate|].
  rewrite <- Eg. unfold ratings_of. rewrite Forall_map, Forall_forall.
  intros r Hr. apply filter_In in Hr. apply Hb, Hr.
Qed.

Lemma pivot_table_entry_bounds_witness :
  nth 0 (nth 1 (values (pivot_table example_named)) []) None = Some 3
  /\ 0 <= 3 <= 5.
Proof.
  assert (E : nth 0 (nth 1 (values (pivot_table example_named)) []) None
              = Some 3) by (rewrite example_pivot; reflexivity).
  split; [exact E|].
  apply (pivot_table_entry_bounds example_named 0 5 1 0 3).
  - intros r [<-|[<-|[<-|[]]]]; simpl; lra.
  - exact E.
Defined.

Lemma group_mean_some {K : Type} `{Key K} (rows : list (rating_row K))
      (r : rating_row K) :
  In r rows -> group_mean rows (userId r) (movieId r) <> None.
Proof.
  intros Hr E. apply group_mean_none in E.
  apply (proj1 (ratings_of_nil rows _ _) E r Hr). now split.
Qed.

(** X20.  The pivot table has no empty line: every row holds at least
    one rating and so does every column. *)
Theorem pivot_table_no_empty_line {K : Type} `{Key K}
        (rows : list (rating_row K)) :
  (forall i, (i < length (index (pivot_table rows)))%nat ->
     exists j, (j < length (columns (pivot_table rows)))%nat
               /\ nth j (nth i (values (pivot_table rows)) []) None <> None)
  /\ (forall j, (j < length (columns (pivot_table rows)))%nat ->
        exists i, (i < length (index (pivot_table rows)))%nat
                  /\ nth j (nth i (values (pivot_table rows)) []) None <> None).
Proof.
  destruct (pivot_table_labels_members rows) as [Hu Ht].
  split.
  - intros i Hi.
    assert (Hin : In (nth i (index (pivot_table rows)) 0%nat)
                     (map userId rows)) by (apply Hu, nth_In, Hi).
    apply in_map_iff in Hin. destruct Hin as (r & Hr & Hrows).
    assert (Hc : In (movieId r) (columns (pivot_table rows)))
      by (apply Ht; now apply in_map).
    destruct (In_nth _ _ (movieId r) Hc) as (j & Hj & Ej).
    exists j. split; [exact Hj|].
    rewrite (pivot_entry rows (movieId r) i j Hi Hj), Ej, <- Hr.
    now apply group_mean_some.
  - intros j Hj.
    destruct (columns (pivot_table rows)) as [|d cs] eqn:Ec;
      [simpl in Hj; lia|].
    rewrite <- Ec in *.
    assert (Hin : In (nth j (columns (pivot_table rows)) d)
                     (map movieId rows)) by (apply Ht, nth_In, Hj).
    apply in_map_iff in Hin. destruct Hin as (r & Hr & Hrows).
    assert (Hc : In (userId r) (index (pivot_table rows)))
      by (apply Hu; now apply in_map).
    destruct (In_nth _ _ 0%nat Hc) as (i & Hi & Ei).
    exists i. split; [exact Hi|].
    rewrite (pivot_entry rows d i j Hi Hj), Ei, <- Hr.
    now apply group_mean_some.
Qed.

(** ** The order of the rows of [ratings] *)

Lemma group_mean_permutation {K : Type} `{Key K}
      (rows rows' : list (rating_row K)) (u : nat) (t : K) :
  Permutation.Permutation rows rows' ->
  group_mean rows u t = group_mean rows' u t.
Proof.
  intros Hp.
  assert (Hg : Permutation.Permutation (ratings_of rows u t)
                                        (ratings_of rows' u t))
    by (unfold ratings_of; apply Permutation.Permutation_map;
        now apply filter_permutation).
  unfold group_mean.
  destruct (ratings_of rows u t) as [|x g] eqn:E.
  - apply Permutation.Permutation_nil in Hg. now rewrite Hg.
  - destruct (ratings_of rows' u t) as [|x' g'] eqn:E'.
    + apply Permutation.Permutation_sym, Permutation.Permutation_nil in Hg.
      discriminate.
    + f_equal. unfold np_mean.
      now rewrite (Rsum_permutation _ _ Hg),
                  (Permutation.Permutation_length Hg).
Qed.

(** X21.  The pivot table does not depend on the order of the rows of
    [ratings]. *)
Theorem pivot_table_row_order {K : Type} `{Key K}
        (rows rows' : list (rating_row K)) :
  Permutation.Permutation rows rows' -> pivot_table rows = pivot_table rows'.
Proof.
  intros Hp. unfold pivot_table.
  assert (Hu : sorted_unique (map userId rows) = sorted_unique (map userId rows')).
  { apply sorted_unique_ext. intros z. split; apply Permutation.Permutation_in;
      [|apply Permutation.Permutation_sym];
      now apply Permutation.Permutation_map. }
  assert (Ht : sorted_unique (map movieId rows)
               = sorted_unique (map movieId rows')).
  { apply sorted_unique_ext. intros z. split; apply Permutation.Permutation_in;
      [|apply Permutation.Permutation_sym];
      now apply Permutation.Permutation_map. }
  rewrite Hu, Ht. f_equal.
  apply map_ext. intros u. apply map_ext. intros t.
  now apply group_mean_permutation.
Qed.

Lemma pivot_table_row_order_witness :
  pivot_table example_named = pivot_table (rev example_named).
Proof.
  apply pivot_table_row_order. apply Permutation.Permutation_rev.
Defined.

(** ** Titles shared by several movies *)

Lemma Forall2_in_right {A B} (P : A -> B -> Prop) (l : list A) (l' : list B)
      (y : B) :
  Forall2 P l l' -> In y l' -> exists x, In x l /\ P x y.
Proof.
  induction 1 as [|a b l l' Hab _ IH]; intros Hin; [contradiction|].
  destruct Hin as [<-|Hin].
  - exists a. split; [now left|exact Hab].
  - destruct (IH Hin) as (x & Hx & HP). exists x. split; [now right|exact HP].
Qed.

Lemma renamed_users (movies : list movie) (ratings : list (rating_row nat))
      (named : list (rating_row String.string)) :
  Forall2 (renamed movies) ratings named ->
  map userId named = map userId ratings.
Proof.
  induction 1 as [|r n ratings named (Hu & _ & _) _ IH]; [reflexivity|].
  simpl. now rewrite Hu, IH.
Qed.

(** X22.  After the renaming the pivot table has one row per user of
    [ratings], and at most as many columns as there are rated movie
    ids: movies that share a title share a column. *)
Theorem renamed_pivot_size (movies : list movie)
        (ratings : list (rating_row nat))
        (named : list (rating_row String.string)) :
  rename_movies movies ratings = value named ->
  index (pivot_table named) = sorted_unique (map userId ratings)
  /\ (length (columns (pivot_table named))
      <= length (sorted_unique (map movieId ratings)))%nat.
Proof.
  intros E. apply rename_movies_value in E. split.
  - unfold pivot_table. cbn [index]. now rewrite (renamed_users movies ratings).
  - set (f := fun x => match replace_name movies x with
                       | value t => t
                       | exception _ => ""%string
                       end).
    rewrite <- (length_map f (sorted_unique (map movieId ratings))).
    apply NoDup_incl_length.
    + apply ascending_NoDup. unfold pivot_table. cbn [columns].
      apply ascending_sorted_unique.
    + intros t Ht. unfold pivot_table in Ht. cbn [columns] in Ht.
      apply In_sorted_unique, in_map_iff in Ht.
      destruct Ht as (n & <- & Hn).
      destruct (Forall2_in_right _ _ _ _ E Hn) as (r & Hr & _ & _ & Hname).
      apply in_map_iff. exists (movieId r). split.
      * unfold f. now rewrite Hname.
      * apply In_sorted_unique. now apply in_map.
Qed.

Lemma example_renaming :
  rename_movies example_movies (drop_timestamp example_ratings)
  = value example_named.
Proof. reflexivity. Qed.

Lemma renamed_pivot_size_witness :
  index (pivot_table example_named)
  = sorted_unique (map userId (drop_timestamp example_ratings))
  /\ (length (columns (pivot_table example_named))
      <= length (sorted_unique (map movieId (drop_timestamp example_ratings))))%nat.
Proof.
  apply (renamed_pivot_size example_movies). exact example_renaming.
Defined.

(** ** Cell 10 as a whole *)

Lemma sorted_unique_nonempty {K : Type} `{Key K} (l : list K) :
  l <> [] -> (0 < length (sorted_unique l))%nat.
Proof.
  destruct l as [|x l]; [congruence|]. intros _.
  assert (Hin : In x (sorted_unique (x :: l)))
    by (apply In_sorted_unique; now left).
  destruct (sorted_unique (x :: l)); [contradiction|simpl; lia].
Qed.

(** X23.  Cell 10 raises [IndexError] when some rating names a movie id
    that is not in [movies].  Otherwise, on a table of ratings that is
    not empty, it returns a standardized matrix [X_std] with one row
    per user and one column per title of the pivot table. *)
Theorem load_and_standardize_outcome (movies : list movie)
        (ratings : list ratings_csv_row) :
  (Exists (fun r => ~ In (csv_movieId r) (map movies_movieId movies)) ratings ->
   load_and_standardize movies ratings = exception IndexError)
  /\ (ratings <> [] ->
      Forall (fun r => In (csv_movieId r) (map movies_movieId movies)) ratings ->
      exists named X_std,
        rename_movies movies (drop_timestamp ratings) = value named
        /\ load_and_standardize movies ratings = value X_std
        /\ standardized (fst (shape (pivot_table named)))
                        (snd (shape (pivot_table named))) X_std).
Proof.
  split.
  - intros Hex. unfold load_and_standardize.
    rewrite rename_movies_unknown; [reflexivity|].
    unfold drop_timestamp. apply Exists_exists in Hex.
    destruct Hex as (r & Hr & Hnot). apply Exists_exists.
    eexists. split; [apply in_map, Hr|exact Hnot].
  - intros Hne Hall.
    destruct (rename_movies_known movies (drop_timestamp ratings))
      as (named & E & HF).
    { unfold drop_timestamp. rewrite Forall_map. exact Hall. }
    assert (Hnamed : named <> []).
    { intros ->. apply Forall2_length in HF.
      unfold drop_timestamp in HF. rewrite length_map in HF.
      destruct ratings; [congruence|discriminate]. }
    pose proof (pivot_values_shape named) as HS.
    assert (HN : (0 < length (index (pivot_table named)))%nat).
    { apply sorted_unique_nonempty. destruct named; [congruence|discriminate]. }
    assert (HD : (0 < length (columns (pivot_table named)))%nat).
    { apply sorted_unique_nonempty. destruct named; [congruence|discriminate]. }
    exists named, (StandardScaler_fit_transform
                     (replace_nan_0 (values (pivot_table named)))).
    split; [exact E|]. split.
    + unfold load_and_standardize. rewrite E.
      now rewrite (standardize_returns _ _ _ HS HN HD).
    + apply fit_transform_standardized; [|exact HN].
      now apply replace_nan_0_shape.
Qed.

Lemma load_and_standardize_outcome_witness :
  exists named X_std,
    rename_movies example_movies (drop_timestamp example_ratings) = value named
    /\ load_and_standardize example_movies example_ratings = value X_std
    /\ standardized (fst (shape (pivot_table named)))
                    (snd (shape (pivot_table named))) X_std.
Proof.
  apply (proj2 (load_and_standardize_outcome example_movies example_ratings)).
  - discriminate.
  - apply Forall_forall. intros r [<-|[<-|[<-|[]]]]; simpl; intuition.
Defined.

(** ** The size of the covariances *)

Lemma dotprod_mean_bound (a b : vector) :
  length a = length b ->
  - (dotprod a a + dotprod b b) <= 2 * dotprod a b <= dotprod a a + dotprod b b.
Proof.
  unfold dotprod. revert b.
  induction a as [|x a IH]; intros [|y b] Hlen; simpl in *; try discriminate.
  - lra.
  - injection Hlen as Hlen. specialize (IH b Hlen).
    pose proof (Rle_0_sqr (x - y)) as H1. pose proof (Rle_0_sqr (x + y)) as H2.
    unfold Rsqr in H1, H2. lra.
Qed.

(** X24.  On standardized data with [N >= 2] rows every entry of the
    covariance matrix is a number between [- N / (N - 1)] and
    [N / (N - 1)]. *)
Theorem cov_mat_entry_bound (N D : nat) (X_std : matrix) (j k : nat) :
  standardized N D X_std -> (2 <= N)%nat -> (j < D)%nat -> (k < D)%nat ->
  exists v, nth k (nth j (cov_mat X_std) []) nonfinite = fin v
            /\ - (INR N / (INR N - 1)) <= v <= INR N / (INR N - 1).
Proof.
  intros HS HN Hj Hk. pose proof HS as [HX Hm].
  rewrite (nth_cov_mat N D) by assumption.
  rewrite (centered_of_standardized N D) by (auto; lia).
  eexists. split; [reflexivity|].
  assert (Hlen : forall i, length (col i X_std) = N)
    by (intros i; rewrite col_length; apply HX).
  assert (Hne : forall i, col i X_std <> []).
  { intros i E. specialize (Hlen i). rewrite E in Hlen. simpl in Hlen. lia. }
  assert (Hself : forall i, (i < D)%nat ->
            0 <= dotprod (col i X_std) (col i X_std) <= INR N).
  { intros i Hi. destruct (Hm i Hi) as [Hmean Hvar].
    rewrite (dotprod_self_variance _ (Hne i) Hmean), Hlen.
    assert (H0 : 0 <= INR N) by apply pos_INR.
    destruct Hvar as [-> | ->]; lra. }
  pose proof (dotprod_mean_bound (col j X_std) (col k X_std)) as Hb.
  rewrite !Hlen in Hb. specialize (Hb eq_refl).
  pose proof (Hself j Hj) as Hjj. pose proof (Hself k Hk) as Hkk.
  assert (H2 : 2 <= INR N) by (apply (le_INR 2); lia).
  assert (Hinv : 0 < / (INR N - 1)) by (apply Rinv_0_lt_compat; lra).
  unfold Rdiv. split.
  - replace (- (INR N * / (INR N - 1))) with (- INR N * / (INR N - 1))
      by ring.
    apply Rmult_le_compat_r; lra.
  - apply Rmult_le_compat_r; lra.
Qed.

Lemma cov_mat_entry_bound_witness :
  exists v, nth 1 (nth 0 (cov_mat [[1; -1]; [-1; 1]]) []) nonfinite = fin v
            /\ - (INR 2 / (INR 2 - 1)) <= v <= INR 2 / (INR 2 - 1).
Proof.
  apply (cov_mat_entry_bound 2 2 [[1; -1]; [-1; 1]] 0 1).
  - exact standardized_example.
  - lia.
  - lia.
  - lia.
Defined.
